(** * cargo2nix: the optionality analysis of [src/main.rs]

    A shallow embedding of the part of [src/main.rs] that builds the
    [ResolvedPackage] graph, runs the baseline pass ([mark_required]) and the
    feature pass ([activate]) for every workspace member, simplifies the
    accumulated [Optionality] values ([simplify_optionality]) and turns them
    into boolean expressions ([Optionality::to_expr]).

    Rust's [BTreeSet] and [BTreeMap] are modelled as lists kept in the order of
    a comparison function ([Ord]); a panic ([unwrap] on a missing key) is
    modelled by [None]. *)

From Stdlib Require Import String Ascii List Bool Arith NArith Lia Permutation Sorted.
Import ListNotations.

(* ------------------------------------------------------------------ *)
(** ** Total orders ([Ord] in Rust) *)

Class Ord (A : Type) := cmp : A -> A -> comparison.

Class OrdLaws (A : Type) `{Ord A} := {
  cmp_eq_iff : forall x y, cmp x y = Eq <-> x = y;
  cmp_antisym : forall x y, cmp x y = CompOpp (cmp y x);
  cmp_lt_trans : forall x y z, cmp x y = Lt -> cmp y z = Lt -> cmp x z = Lt
}.

Definition eqb_of {A} `{Ord A} (x y : A) : bool :=
  match cmp x y with Eq => true | _ => false end.

Section OrdFacts.
Context {A : Type} `{OrdLaws A}.

Lemma cmp_refl x : cmp x x = Eq.
Proof. apply cmp_eq_iff; reflexivity. Qed.

Lemma eqb_of_spec x y : eqb_of x y = true <-> x = y.
Proof.
  unfold eqb_of. rewrite <- cmp_eq_iff.
  destruct (cmp x y); split; congruence.
Qed.

Lemma eqb_of_refl x : eqb_of x x = true.
Proof. apply eqb_of_spec; reflexivity. Qed.

Lemma eqb_of_neq x y : x <> y -> eqb_of x y = false.
Proof.
  intros Hne. destruct (eqb_of x y) eqn:E; [|reflexivity].
  apply eqb_of_spec in E. contradiction.
Qed.

Lemma cmp_gt_lt x y : cmp x y = Gt -> cmp y x = Lt.
Proof. intros E. rewrite cmp_antisym, E. reflexivity. Qed.

Lemma cmp_gt_trans x y z : cmp x y = Gt -> cmp y z = Gt -> cmp x z = Gt.
Proof.
  intros E1 E2. apply cmp_gt_lt in E1, E2.
  rewrite cmp_antisym, (cmp_lt_trans _ _ _ E2 E1). reflexivity.
Qed.

Lemma eq_dec_of (x y : A) : {x = y} + {x <> y}.
Proof.
  destruct (eqb_of x y) eqn:E; [left | right].
  - apply eqb_of_spec; exact E.
  - intros ->. rewrite eqb_of_refl in E. discriminate.
Qed.
End OrdFacts.

(** Byte-wise lexicographic order of [&str]. *)
#[export] Instance string_Ord : Ord string := String.compare.

Lemma ascii_compare_trans a b c :
  Ascii.compare a b = Lt -> Ascii.compare b c = Lt -> Ascii.compare a c = Lt.
Proof.
  unfold Ascii.compare. rewrite !N.compare_lt_iff. lia.
Qed.

Lemma ascii_compare_eq_l a b c :
  Ascii.compare a b = Eq -> Ascii.compare a c = Ascii.compare b c.
Proof. intros E. apply Ascii.compare_eq_iff in E. subst. reflexivity. Qed.

Lemma string_compare_trans s1 s2 s3 :
  String.compare s1 s2 = Lt -> String.compare s2 s3 = Lt ->
  String.compare s1 s3 = Lt.
Proof.
  revert s2 s3.
  induction s1 as [|a s1 IH]; intros [|b s2] [|c s3]; simpl;
    try discriminate; try reflexivity.
  destruct (Ascii.compare a b) eqn:Eab; try discriminate;
  destruct (Ascii.compare b c) eqn:Ebc; try discriminate; intros H1 H2.
  - apply Ascii.compare_eq_iff in Eab, Ebc. subst.
    unfold Ascii.compare at 1. rewrite N.compare_refl.
    apply IH with s2; assumption.
  - apply Ascii.compare_eq_iff in Eab. subst. rewrite Ebc. reflexivity.
  - apply Ascii.compare_eq_iff in Ebc. subst. rewrite Eab. reflexivity.
  - rewrite (ascii_compare_trans _ _ _ Eab Ebc). reflexivity.
Qed.

#[export] Instance string_OrdLaws : OrdLaws string.
Proof.
  split.
  - intros x y. split; [apply String.compare_eq_iff|intros ->].
    unfold cmp, string_Ord. induction y as [|a y IH]; simpl; [reflexivity|].
    unfold Ascii.compare. rewrite N.compare_refl. exact IH.
  - intros x y. apply String.compare_antisym.
  - apply string_compare_trans.
Qed.

(** Tuples are ordered lexicographically, as Rust derives it. *)
#[export] Instance prod_Ord {A B} `{Ord A} `{Ord B} : Ord (A * B) :=
  fun p q => match cmp (fst p) (fst q) with
             | Eq => cmp (snd p) (snd q)
             | c => c
             end.

#[export] Instance prod_OrdLaws {A B} `{OrdLaws A} `{OrdLaws B} :
  OrdLaws (A * B).
Proof.
  split.
  - intros [a b] [c d]; unfold cmp, prod_Ord; simpl.
    destruct (cmp a c) eqn:E.
    + apply cmp_eq_iff in E; subst. rewrite cmp_eq_iff. split; congruence.
    + split; [discriminate|]. intros Heq; inversion Heq; subst.
      rewrite cmp_refl in E. discriminate.
    + split; [discriminate|]. intros Heq; inversion Heq; subst.
      rewrite cmp_refl in E. discriminate.
  - intros [a b] [c d]; unfold cmp, prod_Ord; simpl.
    rewrite (cmp_antisym a c). destruct (cmp c a); simpl;
      [apply cmp_antisym | reflexivity | reflexivity].
  - intros [a b] [c d] [e f]; unfold cmp, prod_Ord; simpl.
    destruct (cmp a c) eqn:E1; try discriminate;
    destruct (cmp c e) eqn:E2; try discriminate; intros Hl1 Hl2.
    + apply cmp_eq_iff in E1, E2; subst. rewrite cmp_refl.
      exact (cmp_lt_trans _ _ _ Hl1 Hl2).
    + apply cmp_eq_iff in E1; subst. rewrite E2. reflexivity.
    + apply cmp_eq_iff in E2; subst. rewrite E1. reflexivity.
    + rewrite (cmp_lt_trans _ _ _ E1 E2). reflexivity.
Qed.

(** Contradiction search among comparison facts of a strict total order. *)
Ltac cmp_facts :=
  repeat match goal with
  | H : cmp ?x ?y = Eq |- _ => apply cmp_eq_iff in H; subst
  | H : cmp ?x ?y = Gt |- _ => apply cmp_gt_lt in H
  end.

Ltac cmp_contra :=
  cmp_facts;
  first
  [ match goal with H : cmp ?x ?x = Lt |- _ => rewrite cmp_refl in H; discriminate H end
  | match goal with
    | H1 : cmp ?x ?y = Lt, H2 : cmp ?y ?x = Lt |- _ =>
        pose proof (cmp_lt_trans _ _ _ H1 H2) as Hc;
        rewrite cmp_refl in Hc; discriminate Hc
    end
  | match goal with
    | H1 : cmp ?x ?y = Lt, H2 : cmp ?y ?z = Lt, H3 : cmp ?z ?x = Lt |- _ =>
        pose proof (cmp_lt_trans _ _ _ (cmp_lt_trans _ _ _ H1 H2) H3) as Hc;
        rewrite cmp_refl in Hc; discriminate Hc
    end ].

(* ------------------------------------------------------------------ *)
(** ** [BTreeSet]: a list kept sorted by [cmp], without duplicates *)

Module BSet.
Definition t (A : Type) := list A.

Definition empty {A} : t A := [].

(** [BTreeSet::insert]: an element equal to one already present is not
    added again. *)
Fixpoint insert {A} `{Ord A} (x : A) (s : t A) : t A :=
  match s with
  | [] => [x]
  | y :: s' =>
      match cmp x y with
      | Lt => x :: s
      | Eq => s
      | Gt => y :: insert x s'
      end
  end.

(** [BTreeSet::contains]. *)
Definition contains {A} `{Ord A} (x : A) (s : t A) : bool :=
  existsb (eqb_of x) s.

(** [BTreeSet::len]. *)
Definition len {A} (s : t A) : nat := length s.

Section Facts.
Context {A : Type} `{OrdLaws A}.

Lemma insert_comm (a b : A) s :
  insert a (insert b s) = insert b (insert a s).
Proof.
  induction s as [|y s IH]; simpl.
  - destruct (cmp a b) eqn:Eab; destruct (cmp b a) eqn:Eba;
      try reflexivity; try cmp_contra; cmp_facts; reflexivity.
  - destruct (cmp b y) eqn:Eby; destruct (cmp a y) eqn:Eay; simpl;
      rewrite ?Eby, ?Eay;
      repeat match goal with
             | |- context [cmp ?x ?z] => destruct (cmp x z) eqn:?; simpl
             end;
      try reflexivity; try cmp_contra; try (f_equal; exact IH);
      cmp_facts; try reflexivity.
Qed.

Lemma contains_insert x y s :
  contains x (insert y s) = eqb_of x y || contains x s.
Proof.
  unfold contains. induction s as [|z s IH]; simpl.
  - rewrite orb_false_r. reflexivity.
  - destruct (cmp y z) eqn:E; simpl.
    + apply cmp_eq_iff in E; subst. destruct (eqb_of x z); reflexivity.
    + reflexivity.
    + rewrite IH. destruct (eqb_of x y), (eqb_of x z); reflexivity.
Qed.

Lemma insert_idem x s : insert x (insert x s) = insert x s.
Proof.
  induction s as [|y s IH]; simpl.
  - rewrite cmp_refl. reflexivity.
  - destruct (cmp x y) eqn:E; simpl.
    + rewrite E. reflexivity.
    + rewrite cmp_refl. reflexivity.
    + rewrite E, IH. reflexivity.
Qed.
End Facts.
End BSet.

(* ------------------------------------------------------------------ *)
(** ** Panics as [None] *)

Definition obind {A B} (m : option A) (k : A -> option B) : option B :=
  match m with Some a => k a | None => None end.

Notation "x <- m ;; k" := (obind m (fun x => k))
  (at level 61, m at next level, right associativity).

Lemma obind_assoc {A B C} (m : option A) (f : A -> option B) (g : B -> option C) :
  obind (obind m f) g = obind m (fun a => obind (f a) g).
Proof. destruct m; reflexivity. Qed.

(** Sequencing a list of fallible steps, stopping at the first panic. *)
Fixpoint fold_steps {S X} (step : X -> S -> option S) (xs : list X) (s : S)
  : option S :=
  match xs with
  | [] => Some s
  | x :: xs' => obind (step x s) (fold_steps step xs')
  end.

(* ------------------------------------------------------------------ *)
(** ** [BTreeMap]: an association list kept sorted by its keys *)

Module BMap.
Definition t (K V : Type) := list (K * V).

Section Ops.
Context {K V : Type} `{Ord K}.

(** [BTreeMap::get]. *)
Fixpoint get (k : K) (m : t K V) : option V :=
  match m with
  | [] => None
  | (k', v) :: m' => if eqb_of k k' then Some v else get k m'
  end.

(** [*map.get_mut(k).unwrap()] followed by an update [f] of the value,
    which may itself panic. *)
Fixpoint get_mut (k : K) (f : V -> option V) (m : t K V) : option (t K V) :=
  match m with
  | [] => None
  | (k', v) :: m' =>
      if eqb_of k k'
      then match f v with Some v' => Some ((k', v') :: m') | None => None end
      else match get_mut k f m' with
           | Some m'' => Some ((k', v) :: m'')
           | None => None
           end
  end.

(** [lo <= k <= hi], the bounds of [range_mut(lo..=hi)]. *)
Definition in_range (lo hi k : K) : bool :=
  match cmp lo k, cmp k hi with
  | Gt, _ => false
  | _, Gt => false
  | _, _ => true
  end.

(** [map.range_mut(lo..=hi).for_each(f)]. *)
Definition range_mut (lo hi : K) (f : V -> V) (m : t K V) : t K V :=
  map (fun kv => if in_range lo hi (fst kv) then (fst kv, f (snd kv)) else kv) m.

(** [map.values_mut().for_each(f)]. *)
Definition values_mut (f : V -> V) (m : t K V) : t K V :=
  map (fun kv => (fst kv, f (snd kv))) m.

(** [map.entry(k).or_insert(d)] followed by an update [f] of the entry. *)
Fixpoint entry_or_insert (k : K) (d : V) (f : V -> V) (m : t K V) : t K V :=
  match m with
  | [] => [(k, f d)]
  | (k', v) :: m' =>
      match cmp k k' with
      | Lt => (k, f d) :: m
      | Eq => (k', f v) :: m'
      | Gt => (k', v) :: entry_or_insert k d f m'
      end
  end.

(** Collecting an iterator of pairs into a map: later pairs overwrite. *)
Definition from_list (kvs : list (K * V)) : t K V :=
  fold_left (fun m kv => entry_or_insert (fst kv) (snd kv) (fun _ => snd kv) m)
            kvs [].

Definition values (m : t K V) : list V := map snd m.
End Ops.

Section Facts.
Context {K V : Type} `{OrdLaws K}.

Ltac crush_matches :=
  repeat (simpl in *;
          match goal with
          | H : eqb_of ?a ?b = true |- _ => apply eqb_of_spec in H; subst
          | H : eqb_of ?a ?a = false |- _ => rewrite eqb_of_refl in H; discriminate H
          | |- context [match ?x with _ => _ end] =>
              lazymatch x with
              | context [match _ with _ => _ end] => fail
              | _ => destruct x eqn:?
              end
          | H : context [match ?x with _ => _ end] |- _ =>
              lazymatch x with
              | context [match _ with _ => _ end] => fail
              | _ => destruct x eqn:?
              end
          end);
  simpl in *; try congruence.

Lemma get_mut_comm_ne (k1 k2 : K) (f g : V -> option V) (m : t K V) :
  k1 <> k2 ->
  obind (get_mut k1 f m) (get_mut k2 g) = obind (get_mut k2 g m) (get_mut k1 f).
Proof.
  intros Hne. induction m as [|[k v] m IH]; simpl; [reflexivity|].
  crush_matches.
Qed.

Lemma get_mut_comm_eq (k : K) (f g : V -> option V) (m : t K V) :
  (forall v, obind (f v) g = obind (g v) f) ->
  obind (get_mut k f m) (get_mut k g) = obind (get_mut k g m) (get_mut k f).
Proof.
  intros Hfg. induction m as [|[k' v] m IH]; simpl; [reflexivity|].
  specialize (Hfg v).
  destruct (f v) eqn:Fv, (g v) eqn:Gv; simpl in Hfg; crush_matches.
Qed.

Lemma get_mut_fuse (k : K) (f g : V -> option V) (m : t K V) :
  obind (get_mut k f m) (get_mut k g) = get_mut k (fun v => obind (f v) g) m.
Proof.
  induction m as [|[k' v] m IH]; simpl; [reflexivity|].
  destruct (eqb_of k k') eqn:E.
  - destruct (f v); simpl; [rewrite E|]; reflexivity.
  - rewrite <- IH. destruct (get_mut k f m); simpl; [rewrite E|reflexivity].
    destruct (get_mut k g t0); reflexivity.
Qed.

Lemma get_get_mut (k k' : K) (f : V -> option V) (m m' : t K V) :
  get_mut k f m = Some m' ->
  get k' m' = if eqb_of k' k then obind (get k m) f else get k' m.
Proof.
  revert m'. induction m as [|[k0 v] m IH]; intros m' Hm; simpl in *;
    [discriminate|].
  destruct (eqb_of k k0) eqn:E.
  - apply eqb_of_spec in E; subst k0.
    destruct (f v) eqn:Fv; inversion Hm; subst; simpl.
    destruct (eqb_of k' k); [symmetry; exact Fv | reflexivity].
  - destruct (get_mut k f m) eqn:G; inversion Hm; subst; simpl.
    rewrite (IH _ eq_refl).
    destruct (eqb_of k' k0) eqn:E0, (eqb_of k' k) eqn:E1; try reflexivity.
    apply eqb_of_spec in E0, E1; subst. rewrite eqb_of_refl in E. discriminate.
Qed.

Lemma get_mut_none_iff (k : K) (f : V -> option V) (m : t K V) :
  get_mut k f m = None <-> obind (get k m) f = None.
Proof.
  induction m as [|[k' v] m IH]; simpl; [tauto|].
  destruct (eqb_of k k'); simpl.
  - destruct (f v); split; congruence.
  - destruct (get_mut k f m); rewrite <- IH; split; congruence.
Qed.

Lemma get_range_mut (lo hi k : K) (f : V -> V) (m : t K V) :
  get k (range_mut lo hi f m) =
  option_map (if in_range lo hi k then f else fun v => v) (get k m).
Proof.
  induction m as [|[k' v] m IH]; simpl; [reflexivity|].
  destruct (in_range lo hi k') eqn:R; simpl; rewrite IH;
    destruct (eqb_of k k') eqn:E; try reflexivity;
    apply eqb_of_spec in E; subst; rewrite R; reflexivity.
Qed.

Lemma get_values_mut (k : K) (f : V -> V) (m : t K V) :
  get k (values_mut f m) = option_map f (get k m).
Proof.
  induction m as [|[k' v] m IH]; simpl; [reflexivity|].
  destruct (eqb_of k k'); [reflexivity | exact IH].
Qed.
End Facts.
End BMap.

(* ------------------------------------------------------------------ *)
(** ** Orders of the cargo types used as map keys *)

#[export] Instance nat_Ord : Ord nat := Nat.compare.

#[export] Instance nat_OrdLaws : OrdLaws nat.
Proof.
  split.
  - apply Nat.compare_eq_iff.
  - intros x y. apply Nat.compare_antisym.
  - intros x y z. unfold cmp, nat_Ord. rewrite !Nat.compare_lt_iff. lia.
Qed.

(** [None < Some _], as Rust derives it for [Option]. *)
#[export] Instance option_Ord {A} `{Ord A} : Ord (option A) :=
  fun x y => match x, y with
             | None, None => Eq
             | None, Some _ => Lt
             | Some _, None => Gt
             | Some a, Some b => cmp a b
             end.

#[export] Instance option_OrdLaws {A} `{OrdLaws A} : OrdLaws (option A).
Proof.
  split.
  - intros [a|] [b|]; unfold cmp, option_Ord; simpl;
      try (split; congruence).
    rewrite cmp_eq_iff. split; congruence.
  - intros [a|] [b|]; unfold cmp, option_Ord; simpl; try reflexivity.
    apply cmp_antisym.
  - intros [a|] [b|] [c|]; unfold cmp, option_Ord; simpl; try discriminate;
      try reflexivity. apply cmp_lt_trans.
Qed.

(** A type ordered through an injective key. *)
Definition Ord_by {A B} `{Ord B} (key : A -> B) : Ord A :=
  fun x y => cmp (key x) (key y).

Lemma OrdLaws_by {A B} `{OrdLaws B} (key : A -> B) :
  (forall x y, key x = key y -> x = y) -> @OrdLaws A (Ord_by key).
Proof.
  intros Hinj. split; unfold cmp, Ord_by.
  - intros x y. rewrite cmp_eq_iff. split; [apply Hinj | intros ->; reflexivity].
  - intros x y. apply cmp_antisym.
  - intros x y z. apply cmp_lt_trans.
Qed.

(** [cargo::core::dependency::Kind], with the derived order of its
    declaration in cargo: [Normal < Development < Build]. *)
Inductive DependencyKind := Normal | Development | Build.

Definition DependencyKind_index (k : DependencyKind) : nat :=
  match k with Normal => 0 | Development => 1 | Build => 2 end.

#[export] Instance DependencyKind_Ord : Ord DependencyKind :=
  Ord_by DependencyKind_index.

#[export] Instance DependencyKind_OrdLaws : OrdLaws DependencyKind.
Proof. apply OrdLaws_by. intros [] []; simpl; congruence. Qed.

(** [cargo::core::SourceId]: the kind of source, its URL and, for git
    sources, the precise revision. *)
Inductive SourceKind := Path | Git | Registry.

Definition SourceKind_index (k : SourceKind) : nat :=
  match k with Path => 0 | Git => 1 | Registry => 2 end.

Record SourceId := {
  source_kind : SourceKind;
  source_url : string;
  source_precise : option string
}.

Definition is_git (s : SourceId) : bool :=
  match source_kind s with Git => true | _ => false end.

(** [cargo::core::PackageId]: name, version and source. *)
Record PackageId := {
  pid_name : string;
  pid_version : string;
  pid_source : SourceId
}.

Definition PackageId_key (p : PackageId) :=
  (pid_name p, (pid_version p,
    (SourceKind_index (source_kind (pid_source p)),
     (source_url (pid_source p), source_precise (pid_source p))))).

#[export] Instance PackageId_Ord : Ord PackageId := Ord_by PackageId_key.

#[export] Instance PackageId_OrdLaws : OrdLaws PackageId.
Proof.
  apply OrdLaws_by.
  intros [n v [k u p]] [n' v' [k' u' p']]; unfold PackageId_key; simpl.
  intros Heq; inversion Heq; subst.
  destruct k, k'; simpl in *; try discriminate; reflexivity.
Qed.

(** A target platform restriction ([cargo_platform::Platform]), kept as its
    text. *)
Definition Platform := string.

(** [cargo::core::TargetKind]; [Target::is_lib] holds of [Lib]. *)
Inductive TargetKind := Lib | Bin | Test | Bench | ExampleLib | ExampleBin | CustomBuild.

Record Target := {
  target_name : string;
  target_kind : TargetKind
}.

Definition is_lib (t : Target) : bool :=
  match target_kind t with Lib => true | _ => false end.

(** [cargo::core::Dependency]: one dependency declaration of a manifest. *)
Record Dependency := {
  dep_name_in_toml : string;
  dep_kind : DependencyKind;
  dep_optional : bool;
  dep_platform : option Platform
}.

(** [cargo::core::Package]. *)
Record Package := {
  package_id : PackageId;
  pkg_targets : list Target;
  pkg_dependencies : list Dependency;
  pkg_features : list (string * list string)
}.

(** [cargo::core::resolver::Resolve]: the dependency graph, with the
    declarations behind each edge, the activated features and the
    checksums. [iter], [deps] and [features] read it as cargo does: a
    package absent from the graph has no edges and no features. *)
Record Resolve := {
  resolve_graph : BMap.t PackageId (list (PackageId * list Dependency));
  resolve_features : BMap.t PackageId (list string);
  resolve_checksums : BMap.t PackageId (option string)
}.

Definition iter (r : Resolve) : list PackageId := map fst (resolve_graph r).

Definition deps (r : Resolve) (id : PackageId) : list (PackageId * list Dependency) :=
  match BMap.get id (resolve_graph r) with Some ds => ds | None => [] end.

Definition features (r : Resolve) (id : PackageId) : list string :=
  match BMap.get id (resolve_features r) with Some fs => fs | None => [] end.

(* ------------------------------------------------------------------ *)
(** ** [Optionality] and its operations *)

Definition PackageName := string.
Definition Feature := string.
Definition RootFeature := (PackageName * Feature)%type.

Inductive Optionality :=
| Required
| Optional (required_by_pkgs : BSet.t PackageName)
           (activated_by_features : BSet.t RootFeature).

(** [impl Default for Optionality]. *)
Definition Optionality_default : Optionality := Optional BSet.empty BSet.empty.

Definition Optionality_eq_dec (o1 o2 : Optionality) : {o1 = o2} + {o1 <> o2}.
Proof.
  decide equality; apply list_eq_dec; [|apply string_dec].
  intros [x1 x2] [y1 y2]. destruct (string_dec x1 y1), (string_dec x2 y2);
    [left; congruence | right; congruence..].
Defined.

(** The derived [PartialEq] of [Optionality]. *)
Definition Optionality_eqb (o1 o2 : Optionality) : bool :=
  if Optionality_eq_dec o1 o2 then true else false.

(** [Optionality::activated_by]. *)
Definition activated_by (rf : RootFeature) (o : Optionality) : Optionality :=
  match o with
  | Optional required_by_pkgs activated_by_features =>
      if negb (BSet.contains (fst rf) required_by_pkgs)
      then Optional required_by_pkgs (BSet.insert rf activated_by_features)
      else o
  | Required => o
  end.

(** [Optionality::required_by]. *)
Definition required_by (pkg_name : PackageName) (o : Optionality) : Optionality :=
  match o with
  | Optional required_by_pkgs activated_by_features =>
      Optional (BSet.insert pkg_name required_by_pkgs) activated_by_features
  | Required => o
  end.

(* ------------------------------------------------------------------ *)
(** ** [ResolvedPackage] and [ResolvedDependency] *)

Record ResolvedDependency := {
  extern_name : string;
  rdep_pkg : Package;
  optionality : Optionality;
  platforms : option (list Platform)
}.

Definition set_optionality (o : Optionality) (d : ResolvedDependency) :=
  {| extern_name := extern_name d; rdep_pkg := rdep_pkg d;
     optionality := o; platforms := platforms d |}.

Definition set_platforms (p : option (list Platform)) (d : ResolvedDependency) :=
  {| extern_name := extern_name d; rdep_pkg := rdep_pkg d;
     optionality := optionality d; platforms := p |}.

Record ResolvedPackage := {
  rpkg_pkg : Package;
  rpkg_deps : BMap.t (PackageId * DependencyKind) ResolvedDependency;
  rpkg_features : BMap.t Feature Optionality;
  rpkg_checksum : option string
}.

Definition set_deps (ds : BMap.t (PackageId * DependencyKind) ResolvedDependency)
  (r : ResolvedPackage) :=
  {| rpkg_pkg := rpkg_pkg r; rpkg_deps := ds;
     rpkg_features := rpkg_features r; rpkg_checksum := rpkg_checksum r |}.

Definition set_features (fs : BMap.t Feature Optionality) (r : ResolvedPackage) :=
  {| rpkg_pkg := rpkg_pkg r; rpkg_deps := rpkg_deps r;
     rpkg_features := fs; rpkg_checksum := rpkg_checksum r |}.

(** [ResolvedPackage::iter_deps_with_id_mut]: the edges whose key lies in
    [(id, Normal) ..= (id, Build)], each updated by [f]. *)
Definition iter_deps_with_id_mut (id : PackageId) (f : ResolvedDependency -> ResolvedDependency)
  (ds : BMap.t (PackageId * DependencyKind) ResolvedDependency) :=
  BMap.range_mut (id, Normal) (id, Build) f ds.

Definition is_development (k : PackageId * DependencyKind) : bool :=
  match snd k with Development => true | _ => false end.

(** [ResolvedPackage::iter_optionality_mut], read: the optionalities of the
    non-development edges, then those of the features. *)
Definition iter_optionality (r : ResolvedPackage) : list Optionality :=
  map (fun kv => optionality (snd kv))
      (filter (fun kv => negb (is_development (fst kv))) (rpkg_deps r))
  ++ BMap.values (rpkg_features r).

(** [ResolvedPackage::iter_optionality_mut], written: [f] applied to each of
    those optionalities in place. *)
Definition iter_optionality_mut (f : Optionality -> Optionality) (r : ResolvedPackage) :=
  {| rpkg_pkg := rpkg_pkg r;
     rpkg_deps := map (fun kv => if is_development (fst kv) then kv
                                 else (fst kv, set_optionality (f (optionality (snd kv))) (snd kv)))
                      (rpkg_deps r);
     rpkg_features := BMap.values_mut f (rpkg_features r);
     rpkg_checksum := rpkg_checksum r |}.

(** *** [ResolvedPackage::new] *)

Section New.
(** [Resolve::extern_crate_name] of cargo ([Ok] as [Some]), and the
    [nix-prefetch-git] process run by [prefetch_git] ([Err] as [None]). *)
Variable extern_crate_name : PackageId -> PackageId -> Target -> option string.
Variable prefetch_git : string -> string -> option string.

(** The closure given to [filter_map]: [None] is a panic of
    [pkgs_by_id[&dep_id]], [Some None] an edge dropped by [?]. *)
Definition dep_group (pkgs_by_id : BMap.t PackageId Package) (pkg : Package)
  (g : PackageId * list Dependency)
  : option (option (list (PackageId * Dependency * Package * string))) :=
  let (dep_id, ds) := g in
  match BMap.get dep_id pkgs_by_id with
  | None => None
  | Some dep_pkg =>
      Some (match find is_lib (pkg_targets dep_pkg) with
            | None => None
            | Some t =>
                match extern_crate_name (package_id pkg) dep_id t with
                | None => None
                | Some name => Some (map (fun d => (dep_id, d, dep_pkg, name)) ds)
                end
            end)
  end.

(** [.filter_map(..).flatten()]. *)
Fixpoint dep_items (pkgs_by_id : BMap.t PackageId Package) (pkg : Package)
  (gs : list (PackageId * list Dependency))
  : option (list (PackageId * Dependency * Package * string)) :=
  match gs with
  | [] => Some []
  | g :: gs' =>
      match dep_group pkgs_by_id pkg g with
      | None => None
      | Some o =>
          match dep_items pkgs_by_id pkg gs' with
          | None => None
          | Some rest => Some (match o with Some l => l ++ rest | None => rest end)
          end
      end
  end.

(** The [for_each] body: the entry [(dep_id, dep.kind())], created on first
    use, and the merge of the platform restrictions. *)
Definition add_dep (m : BMap.t (PackageId * DependencyKind) ResolvedDependency)
  (item : PackageId * Dependency * Package * string) :=
  let '(dep_id, dep, dep_pkg, name) := item in
  BMap.entry_or_insert (dep_id, dep_kind dep)
    {| extern_name := name; rdep_pkg := dep_pkg;
       optionality := Optionality_default; platforms := Some [] |}
    (fun rdep =>
       match dep_platform dep, platforms rdep with
       | Some platform, Some ps => set_platforms (Some (ps ++ [platform])) rdep
       | None, _ => set_platforms None rdep
       | _, _ => rdep
       end)
    m.

(** The checksum: from the lock data, else [prefetch_git] for a git
    source (a panic when the revision or the prefetch is missing). *)
Definition checksum_of (resolve : Resolve) (pkg : Package) : option (option string) :=
  match BMap.get (package_id pkg) (resolve_checksums resolve) with
  | Some (Some s) => Some (Some s)
  | _ =>
      let source_id := pid_source (package_id pkg) in
      if is_git source_id then
        match source_precise source_id with
        | None => None
        | Some rev =>
            match prefetch_git (source_url source_id) rev with
            | None => None
            | Some h => Some (Some h)
            end
        end
      else Some None
  end.

Definition ResolvedPackage_new (pkg : Package) (pkgs_by_id : BMap.t PackageId Package)
  (resolve : Resolve) : option ResolvedPackage :=
  match dep_items pkgs_by_id pkg (deps resolve (package_id pkg)) with
  | None => None
  | Some items =>
      match checksum_of resolve pkg with
      | None => None
      | Some checksum =>
          Some {| rpkg_pkg := pkg;
                  rpkg_deps := fold_left add_dep items [];
                  rpkg_features :=
                    BMap.from_list (map (fun f => (f, Optionality_default))
                                        (features resolve (package_id pkg)));
                  rpkg_checksum := checksum |}
      end
  end.
End New.

(* ------------------------------------------------------------------ *)
(** ** The baseline pass and the feature pass *)

(** The loop shared by [mark_required] and [activate] on one package
    [rpkgs_by_id.get_mut(&id).unwrap()]: every feature the scoped resolution
    activates on [id] ([get_mut(..).unwrap()] on the feature map), then every
    edge the scoped resolution keeps from [id] ([iter_deps_with_id_mut]),
    updated by [g]. *)
Definition visit_pkg (g : Optionality -> Optionality) (resolve : Resolve)
  (id : PackageId) (rpkg : ResolvedPackage) : option ResolvedPackage :=
  match fold_steps (fun f fs => BMap.get_mut f (fun o => Some (g o)) fs)
                   (features resolve id) (rpkg_features rpkg) with
  | None => None
  | Some fs =>
      let rpkg' := set_features fs rpkg in
      Some (set_deps
              (fold_left (fun ds dep =>
                            iter_deps_with_id_mut (fst dep)
                              (fun d => set_optionality (g (optionality d)) d) ds)
                         (deps resolve id) (rpkg_deps rpkg'))
              rpkg')
  end.

(** [for id in resolve.targeted_resolve.iter() { .. }]. *)
Definition visit (g : Optionality -> Optionality) (resolve : Resolve)
  (rpkgs_by_id : BMap.t PackageId ResolvedPackage)
  : option (BMap.t PackageId ResolvedPackage) :=
  fold_steps (fun id st => BMap.get_mut id (visit_pkg g resolve id) st)
             (iter resolve) rpkgs_by_id.

(** [mark_required], given the baseline resolution of the root package. *)
Definition mark_required (root_pkg_name : PackageName) (resolve : Resolve)
  (rpkgs_by_id : BMap.t PackageId ResolvedPackage) :=
  visit (required_by root_pkg_name) resolve rpkgs_by_id.

(** [activate], given the resolution of the root package with the single
    feature [snd root_feature]. *)
Definition activate (root_feature : RootFeature) (resolve : Resolve)
  (rpkgs_by_id : BMap.t PackageId ResolvedPackage) :=
  visit (activated_by root_feature) resolve rpkgs_by_id.

(** A workspace member with the resolutions the Resolution Gateway returns
    for it: the baseline one and one per feature of [all_features(pkg)], in
    that order. *)
Record RootPackage := {
  root_name : PackageName;
  baseline_resolve : Resolve;
  feature_resolves : list (Feature * Resolve)
}.

(** The body of [for pkg in root_pkgs.iter() { .. }] in [generate_cargo_nix]. *)
Definition process_root (pkg : RootPackage)
  (rpkgs_by_id : BMap.t PackageId ResolvedPackage) :=
  st <- mark_required (root_name pkg) (baseline_resolve pkg) rpkgs_by_id ;;
  fold_steps (fun fr st => activate (root_name pkg, fst fr) (snd fr) st)
             (feature_resolves pkg) st.

Definition track (root_pkgs : list RootPackage)
  (rpkgs_by_id : BMap.t PackageId ResolvedPackage) :=
  fold_steps process_root root_pkgs rpkgs_by_id.

(* ------------------------------------------------------------------ *)
(** ** [simplify_optionality] *)

(** [all_eq]: every item equals the first. *)
Definition all_eq (l : list Optionality) : bool :=
  match l with
  | [] => true
  | first :: rest => forallb (fun x => Optionality_eqb x first) rest
  end.

(** The first loop: an item required by as many root packages as there are
    becomes [Required]. *)
Definition promote_universal (n_root_pkgs : nat) (o : Optionality) : Optionality :=
  match o with
  | Optional required_by_pkgs _ =>
      if Nat.eqb (BSet.len required_by_pkgs) n_root_pkgs then Required else o
  | Required => o
  end.

(** "Dev dependencies can't be optional." *)
Definition force_development (r : ResolvedPackage) : ResolvedPackage :=
  set_deps (map (fun kv => if is_development (fst kv)
                           then (fst kv, set_optionality Required (snd kv))
                           else kv)
                (rpkg_deps r)) r.

(** The state after the first two rules. *)
Definition simplify_rules_1_2 (n_root_pkgs : nat) (rpkg : ResolvedPackage) : ResolvedPackage :=
  force_development (iter_optionality_mut (promote_universal n_root_pkgs) rpkg).

(** The body of the loop over the packages; the third rule collapses a
    package whose optionalities are all equal. *)
Definition simplify_rpkg (n_root_pkgs : nat) (rpkg : ResolvedPackage) : ResolvedPackage :=
  let rpkg := simplify_rules_1_2 n_root_pkgs rpkg in
  if all_eq (iter_optionality rpkg)
  then iter_optionality_mut (fun _ => Required) rpkg
  else rpkg.

(** [simplify_optionality(rpkgs_by_id.values_mut(), n_root_pkgs)]. *)
Definition simplify_optionality (rpkgs : BMap.t PackageId ResolvedPackage)
  (n_root_pkgs : nat) : BMap.t PackageId ResolvedPackage :=
  BMap.values_mut (simplify_rpkg n_root_pkgs) rpkgs.

(* ------------------------------------------------------------------ *)
(** ** [Optionality::to_expr] *)

Local Set Warnings "-register-all".

(** Modelled from the spec: [BoolExpr] and [BoolExpr::ors] of [src/expr.rs],
    which is not part of the sources. [ors] builds the disjunction [Or] of
    the given expressions; an empty [Or] denotes false. *)
Inductive BoolExpr :=
| BTrue
| BFalse
| Single (atom : string)
| Or (es : list BoolExpr)
| And (es : list BoolExpr).

(** Modelled from the spec: [BoolExpr::ors]. *)
Definition ors (es : list BoolExpr) : BoolExpr := Or es.

(** Modelled from the spec: the meaning of a [BoolExpr] under a valuation of
    its atoms. *)
Fixpoint eval (atom : string -> bool) (e : BoolExpr) : bool :=
  match e with
  | BTrue => true
  | BFalse => false
  | Single a => atom a
  | Or es => existsb (eval atom) es
  | And es => forallb (eval atom) es
  end.

(** No [And] anywhere in an expression. *)
Fixpoint no_and (e : BoolExpr) : Prop :=
  match e with
  | And _ => False
  | Or es => fold_right (fun e P => no_and e /\ P) True es
  | _ => True
  end.

Definition chr (n : nat) : string := String (ascii_of_nat n) EmptyString.

Definition hex_digit (n : nat) : string :=
  chr (if n <? 10 then 48 + n else 87 + n).

(** [{:?}] of a [str]: quoted, with [\t], [\r], [\n], [\\], the double quote
    and [\0] escaped by a backslash and the other ASCII control characters
    written [\u{..}]. *)
Fixpoint escape_debug (s : string) : string :=
  match s with
  | EmptyString => EmptyString
  | String c s' =>
      let n := nat_of_ascii c in
      let e :=
        if Nat.eqb n 9 then chr 92 ++ "t"
        else if Nat.eqb n 13 then chr 92 ++ "r"
        else if Nat.eqb n 10 then chr 92 ++ "n"
        else if Nat.eqb n 92 then chr 92 ++ chr 92
        else if Nat.eqb n 34 then chr 92 ++ chr 34
        else if Nat.eqb n 0 then chr 92 ++ "0"
        else if (Nat.ltb n 32) || (Nat.eqb n 127) then
          chr 92 ++ "u{" ++ (if Nat.ltb n 16 then hex_digit n
                              else hex_digit (n / 16) ++ hex_digit (n mod 16)) ++ "}"
        else String c EmptyString in
      e ++ escape_debug s'
  end%string.

Definition debug_str (s : string) : string := (chr 34 ++ escape_debug s ++ chr 34)%string.

(** [display_root_feature]. *)
Definition display_root_feature (rf : RootFeature) : string :=
  (fst rf ++ "/" ++ snd rf)%string.

Definition to_expr (o : Optionality) (root_features_var : string) : BoolExpr :=
  match o with
  | Required => BTrue
  | Optional required_by_pkgs activated_by_features =>
      ors (map (fun root_feature =>
                  Single (root_features_var ++ " ? " ++ debug_str (display_root_feature root_feature))%string)
               activated_by_features
           ++ map (fun pkg_name =>
                     Single (root_features_var ++ " ? " ++ debug_str pkg_name)%string)
                  required_by_pkgs)
  end.

(* ------------------------------------------------------------------ *)
(** ** The passes as sequences of single-item updates *)

(** What one update touches in a package: nothing but its presence
    ([get_mut(&id).unwrap()]), one feature, or the edges to one target. *)
Inductive Loc :=
| LPkg
| LFeat (f : Feature)
| LDeps (dep_id : PackageId).

Record Op := {
  op_id : PackageId;
  op_loc : Loc;
  op_fn : Optionality -> Optionality
}.

Definition upd_dep (g : Optionality -> Optionality) (d : ResolvedDependency) :=
  set_optionality (g (optionality d)) d.

Definition apply_loc (loc : Loc) (g : Optionality -> Optionality) (rpkg : ResolvedPackage)
  : option ResolvedPackage :=
  match loc with
  | LPkg => Some rpkg
  | LFeat f =>
      fs <- BMap.get_mut f (fun o => Some (g o)) (rpkg_features rpkg) ;;
      Some (set_features fs rpkg)
  | LDeps dep_id =>
      Some (set_deps (iter_deps_with_id_mut dep_id (upd_dep g) (rpkg_deps rpkg)) rpkg)
  end.

Definition run_op (op : Op) (st : BMap.t PackageId ResolvedPackage) :=
  BMap.get_mut (op_id op) (apply_loc (op_loc op) (op_fn op)) st.

(** The same update on the package, once [get_mut] has found it. *)
Definition apply_op (op : Op) (r : ResolvedPackage) := apply_loc (op_loc op) (op_fn op) r.

(** Two updates of an optionality that can be applied in either order. *)
Definition commute (g1 g2 : Optionality -> Optionality) : Prop :=
  forall o, g1 (g2 o) = g2 (g1 o).

(** The updates [visit g resolve] performs, in order. *)
Definition pkg_ops (g : Optionality -> Optionality) (resolve : Resolve) (id : PackageId) :=
  {| op_id := id; op_loc := LPkg; op_fn := g |}
  :: map (fun f => {| op_id := id; op_loc := LFeat f; op_fn := g |}) (features resolve id)
  ++ map (fun dep => {| op_id := id; op_loc := LDeps (fst dep); op_fn := g |})
         (deps resolve id).

Definition visit_ops (g : Optionality -> Optionality) (resolve : Resolve) : list Op :=
  flat_map (pkg_ops g resolve) (iter resolve).

Definition root_ops (pkg : RootPackage) : list Op :=
  visit_ops (required_by (root_name pkg)) (baseline_resolve pkg)
  ++ flat_map (fun fr => visit_ops (activated_by (root_name pkg, fst fr)) (snd fr))
              (feature_resolves pkg).

(** The same root packages, processed in another order, each with its
    features in another order. *)
Definition reordered (roots1 roots2 : list RootPackage) : Prop :=
  exists roots1',
    Forall2 (fun r r' => root_name r = root_name r' /\
                         baseline_resolve r = baseline_resolve r' /\
                         Permutation (feature_resolves r) (feature_resolves r'))
            roots1 roots1' /\
    Permutation roots1' roots2.

(** Whether a scoped resolution reaches feature [f] of package [id], or an
    edge of [id] to [dep_id]. *)
Definition reached_feature (resolve : Resolve) (id : PackageId) (f : Feature) : bool :=
  existsb (eqb_of id) (iter resolve) && existsb (eqb_of f) (features resolve id).

Definition reached_dep (resolve : Resolve) (id dep_id : PackageId) : bool :=
  existsb (eqb_of id) (iter resolve) && existsb (eqb_of dep_id) (map fst (deps resolve id)).

(** Whether an update touches feature [f] of package [id], or the edge of
    [id] keyed [k]. *)
Definition touches_feature (id : PackageId) (f : Feature) (op : Op) : bool :=
  eqb_of (op_id op) id &&
  match op_loc op with LFeat f' => eqb_of f' f | _ => false end.

Definition touches_dep (id : PackageId) (k : PackageId * DependencyKind) (op : Op) : bool :=
  eqb_of (op_id op) id &&
  match op_loc op with
  | LDeps dep_id => BMap.in_range (dep_id, Normal) (dep_id, Build) k
  | _ => false
  end.

(** The feature pass as the specification words it: the pair is recorded
    on an item that is optional and not already required by the root
    package; any other item is left as it is. *)
Definition activation_as_specified (rf : RootFeature) (o : Optionality) : Optionality :=
  match o with
  | Optional required_by_pkgs activated_by_features =>
      if BSet.contains (fst rf) required_by_pkgs then o
      else Optional required_by_pkgs (BSet.insert rf activated_by_features)
  | Required => o
  end.

(* ------------------------------------------------------------------ *)
(** ** [read_version_attribute] *)

Definition VERSION_ATTRIBUTE_NAME : string := "cargo2nixVersion".

(** Strings are their UTF-8 bytes. [char::is_whitespace] holds of the
    characters of Unicode's White_Space property: U+0009 to U+000D and
    U+0020 (one byte), U+0085 and U+00A0 (two bytes), U+1680, U+2000 to
    U+200A, U+2028, U+2029, U+202F, U+205F and U+3000 (three bytes). *)
Definition is_ascii_whitespace (n : nat) : bool :=
  (Nat.leb 9 n && Nat.leb n 13) || Nat.eqb n 32.

Definition is_whitespace2 (a b : nat) : bool :=
  Nat.eqb a 194 && (Nat.eqb b 133 || Nat.eqb b 160).

Definition is_whitespace3 (a b c : nat) : bool :=
  (Nat.eqb a 225 && Nat.eqb b 154 && Nat.eqb c 128)
  || (Nat.eqb a 226 && Nat.eqb b 128 &&
      ((Nat.leb 128 c && Nat.leb c 138) || Nat.eqb c 168 || Nat.eqb c 169 || Nat.eqb c 175))
  || (Nat.eqb a 226 && Nat.eqb b 129 && Nat.eqb c 159)
  || (Nat.eqb a 227 && Nat.eqb b 128 && Nat.eqb c 128).

(** [str::trim_start]. *)
Fixpoint trim_start (s : string) : string :=
  match s with
  | EmptyString => EmptyString
  | String c s1 =>
      if is_ascii_whitespace (nat_of_ascii c) then trim_start s1
      else match s1 with
           | EmptyString => s
           | String c1 s2 =>
               if is_whitespace2 (nat_of_ascii c) (nat_of_ascii c1) then trim_start s2
               else match s2 with
                    | EmptyString => s
                    | String c2 s3 =>
                        if is_whitespace3 (nat_of_ascii c) (nat_of_ascii c1) (nat_of_ascii c2)
                        then trim_start s3 else s
                    end
           end
  end.

(** The double quote character. *)
Definition quote : ascii := ascii_of_nat 34.

(** [str::find] and [str::rfind] of an ASCII character: its first and last
    byte index. *)
Fixpoint find_byte (c : ascii) (s : string) : option nat :=
  match s with
  | EmptyString => None
  | String c' s' => if Ascii.eqb c' c then Some 0 else option_map S (find_byte c s')
  end.

Fixpoint rfind_byte (c : ascii) (s : string) : option nat :=
  match s with
  | EmptyString => None
  | String c' s' =>
      match rfind_byte c s' with
      | Some j => Some (S j)
      | None => if Ascii.eqb c' c then Some 0 else None
      end
  end.

(** [&s[a..b]], which panics when [a > b] or [b] is past the end (the
    indices used here are next to ASCII characters, so on char
    boundaries). *)
Definition str_slice (a b : nat) (s : string) : option string :=
  if Nat.leb a b && Nat.leb b (String.length s) then Some (substring a (b - a) s) else None.

Section VersionAttribute.
(** [semver::Version] and [Version::parse] ([Err] as [None]). *)
Variable Version : Type.
Variable parse_version : string -> option Version.

(** [read_version_attribute], from the lines of the file as
    [lines().filter_map(|line| line.ok())] gives them; [None] is a panic
    of one of its [expect]s or of the slice. *)
Definition read_version_attribute (lines : list string) : option Version :=
  match find (fun line => String.prefix VERSION_ATTRIBUTE_NAME (trim_start line)) lines with
  | None => None
  | Some s =>
      match find_byte quote s with
      | None => None
      | Some i =>
          match rfind_byte quote s with
          | None => None
          | Some j =>
              match str_slice (i + 1) j s with
              | None => None
              | Some v => parse_version v
              end
          end
      end
  end.
End VersionAttribute.

(* ------------------------------------------------------------------ *)
(** ** [main]: the command line *)

Inductive Action :=
| GenerateToStdout                (** [generate_cargo_nix(io::stdout().lock())] *)
| WriteToFile (file : string)     (** [write_to_file(file)] *)
| PrintHelp                       (** [print_help()] *)
| PrintVersion                    (** [println!("{}", version())] *)
| InvalidArguments.               (** the message, then [print_help()] *)

(** [OsString::into_string] on Unix: the argument is well-formed UTF-8
    (Unicode's table 3-7, as [core::str::from_utf8] checks it: no overlong
    form, no surrogate, nothing above U+10FFFF). *)
Definition in_range_nat (lo hi n : nat) : bool := Nat.leb lo n && Nat.leb n hi.

Definition is_cont (c : ascii) : bool := in_range_nat 128 191 (nat_of_ascii c).

Fixpoint valid_utf8 (s : string) : bool :=
  match s with
  | EmptyString => true
  | String c0 s1 =>
      let n0 := nat_of_ascii c0 in
      if Nat.leb n0 127 then valid_utf8 s1
      else if in_range_nat 194 223 n0 then
        match s1 with
        | String c1 s2 => is_cont c1 && valid_utf8 s2
        | EmptyString => false
        end
      else if in_range_nat 224 239 n0 then
        match s1 with
        | String c1 (String c2 s3) =>
            let n1 := nat_of_ascii c1 in
            (if Nat.eqb n0 224 then in_range_nat 160 191 n1
             else if Nat.eqb n0 237 then in_range_nat 128 159 n1
             else is_cont c1)
            && is_cont c2 && valid_utf8 s3
        | _ => false
        end
      else if in_range_nat 240 244 n0 then
        match s1 with
        | String c1 (String c2 (String c3 s4)) =>
            let n1 := nat_of_ascii c1 in
            (if Nat.eqb n0 240 then in_range_nat 144 191 n1
             else if Nat.eqb n0 244 then in_range_nat 128 143 n1
             else is_cont c1)
            && is_cont c2 && is_cont c3 && valid_utf8 s4
        | _ => false
        end
      else false
  end.

(** [main] up to the choice of its action: the arguments are the raw bytes
    the process received. [std::env::args().collect()] panics on an argument
    that is not UTF-8, and the slice [&args[1..]] on an empty argument
    vector; both are [None]. What the chosen action then does (printing,
    generating, writing) is not part of this model. *)
Definition main (args : list string) : option Action :=
  if negb (forallb valid_utf8 args) then None else
  match args with
  | [] => None
  | _ :: rest =>
      Some match rest with
           | [] => PrintHelp
           | [a] =>
               if String.eqb a "--stdout" || String.eqb a "-s" then GenerateToStdout
               else if String.eqb a "--file" || String.eqb a "-f" then WriteToFile "Cargo.nix"
               else if String.eqb a "--help" || String.eqb a "-h" then PrintHelp
               else if String.eqb a "--version" || String.eqb a "-v" then PrintVersion
               else InvalidArguments
           | [a; file] =>
               if String.eqb a "--file" || String.eqb a "-f" then WriteToFile file
               else InvalidArguments
           | _ => InvalidArguments
           end
  end.

(* ------------------------------------------------------------------ *)
(** ** The tracker keeps every item and only lets its sets grow *)

(** [o'] has every root package and root feature of [o], and the same
    shape. *)
Definition grows (o o' : Optionality) : Prop :=
  match o, o' with
  | Required, Required => True
  | Optional rb af, Optional rb' af' =>
      (forall p, BSet.contains p rb = true -> BSet.contains p rb' = true) /\
      (forall rf, BSet.contains rf af = true -> BSet.contains rf af' = true)
  | _, _ => False
  end.

(** [r'] has the features and the edges of [r], each grown, and its edges
    differ from those of [r] in their optionality only. *)
Definition rpkg_grows (r r' : ResolvedPackage) : Prop :=
  (forall f, match BMap.get f (rpkg_features r), BMap.get f (rpkg_features r') with
             | Some o, Some o' => grows o o'
             | None, None => True
             | _, _ => False
             end) /\
  (forall k, match BMap.get k (rpkg_deps r), BMap.get k (rpkg_deps r') with
             | Some d, Some d' => grows (optionality d) (optionality d') /\
                                  d' = set_optionality (optionality d') d
             | None, None => True
             | _, _ => False
             end).

(** Every package of [st] is in [st'], grown. *)
Definition state_grows (st st' : BMap.t PackageId ResolvedPackage) : Prop :=
  forall id r, BMap.get id st = Some r ->
  exists r', BMap.get id st' = Some r' /\ rpkg_grows r r'.

(** An update panics on [st]: its package is missing, or the feature it
    updates is missing from that package. *)
Definition op_panics (st : BMap.t PackageId ResolvedPackage) (op : Op) : bool :=
  match BMap.get (op_id op) st with
  | None => true
  | Some r =>
      match op_loc op with
      | LFeat f => match BMap.get f (rpkg_features r) with None => true | Some _ => false end
      | _ => false
      end
  end.

(* ------------------------------------------------------------------ *)
(** ** A sample workspace: root packages [app] and [tool] *)

Module Sample.
Local Open Scope string_scope.

Definition registry : SourceId :=
  {| source_kind := Registry;
     source_url := "https://github.com/rust-lang/crates.io-index";
     source_precise := None |}.

Definition sid (name : string) : PackageId :=
  {| pid_name := name; pid_version := "1.0.0"; pid_source := registry |}.

Definition package (name : string) : Package :=
  {| package_id := sid name;
     pkg_targets := [{| target_name := name; target_kind := Lib |}];
     pkg_dependencies := []; pkg_features := [] |}.

Definition edge (name : string) (o : Optionality) : ResolvedDependency :=
  {| extern_name := name; rdep_pkg := package name;
     optionality := o; platforms := None |}.

(** [app] after the tracker: [serde] required by both root packages, a
    development edge to [rand] no pass reached. *)
Definition app_rpkg : ResolvedPackage :=
  {| rpkg_pkg := package "app";
     rpkg_deps := [((sid "rand", Development), edge "rand" (Optional [] []));
                   ((sid "serde", Normal), edge "serde" (Optional ["app"; "tool"] []))];
     rpkg_features := [("default", Optional ["app"; "tool"] []); ("std", Required)];
     rpkg_checksum := None |}.

Definition serde_rpkg : ResolvedPackage :=
  {| rpkg_pkg := package "serde";
     rpkg_deps := [];
     rpkg_features := [("derive", Optional [] [("app", "derive")]);
                       ("std", Optional ["app"] [])];
     rpkg_checksum := None |}.

Definition rpkgs : BMap.t PackageId ResolvedPackage :=
  [(sid "app", app_rpkg); (sid "serde", serde_rpkg)].

(** [cli] has a binary target only. *)
Definition bin_package (name : string) : Package :=
  {| package_id := sid name;
     pkg_targets := [{| target_name := name; target_kind := Bin |}];
     pkg_dependencies := []; pkg_features := [] |}.

Definition decl (name : string) (kind : DependencyKind) : Dependency :=
  {| dep_name_in_toml := name; dep_kind := kind; dep_optional := false;
     dep_platform := None |}.

Definition pkgs_by_id : BMap.t PackageId Package :=
  [(sid "app", package "app"); (sid "cli", bin_package "cli");
   (sid "serde", package "serde")].

Definition full_resolve : Resolve :=
  {| resolve_graph :=
       [(sid "app", [(sid "cli", [decl "cli" Build]);
                     (sid "serde", [decl "serde" Normal; decl "serde" Development])]);
        (sid "cli", []); (sid "serde", [])];
     resolve_features := [(sid "app", ["default"]); (sid "serde", ["std"])];
     resolve_checksums := [(sid "serde", Some "0123")] |}.

Definition resolve_without_cli : Resolve :=
  {| resolve_graph :=
       [(sid "app", [(sid "serde", [decl "serde" Normal; decl "serde" Development])]);
        (sid "serde", [])];
     resolve_features := resolve_features full_resolve;
     resolve_checksums := resolve_checksums full_resolve |}.

(** [extern_crate_name] giving the target's name, and a prefetch that
    fails. *)
Definition extern_crate_name (_ to : PackageId) (t : Target) : option string :=
  Some (target_name t).

Definition prefetch_git (_ _ : string) : option string := None.

(** The tracker's input: every optionality at its default. [app] has a
    development edge to [rand] and two edges (normal, build) to [serde];
    [tool] a normal edge to [serde]. *)
Definition fresh (name : string) (ds : list (string * DependencyKind))
  (fs : list string) : ResolvedPackage :=
  {| rpkg_pkg := package name;
     rpkg_deps := map (fun d => ((sid (fst d), snd d), edge (fst d) Optionality_default)) ds;
     rpkg_features := map (fun f => (f, Optionality_default)) fs;
     rpkg_checksum := None |}.

Definition untracked : BMap.t PackageId ResolvedPackage :=
  [(sid "app", fresh "app" [("rand", Development); ("serde", Normal); ("serde", Build)]
                 ["default"; "extra"]);
   (sid "rand", fresh "rand" [] []);
   (sid "serde", fresh "serde" [] ["derive"; "std"]);
   (sid "tool", fresh "tool" [("serde", Normal)] [])].

Definition scoped (graph : BMap.t PackageId (list (PackageId * list Dependency)))
  (fs : BMap.t PackageId (list string)) : Resolve :=
  {| resolve_graph := graph; resolve_features := fs; resolve_checksums := [] |}.

Definition app_graph : BMap.t PackageId (list (PackageId * list Dependency)) :=
  [(sid "app", [(sid "rand", [decl "rand" Development]);
                (sid "serde", [decl "serde" Normal; decl "serde" Build])]);
   (sid "rand", []); (sid "serde", [])].

Definition tool_graph : BMap.t PackageId (list (PackageId * list Dependency)) :=
  [(sid "serde", []); (sid "tool", [(sid "serde", [decl "serde" Normal])])].

Definition app_base := scoped app_graph [(sid "app", []); (sid "serde", ["std"])].
Definition app_default := scoped app_graph [(sid "app", ["default"]); (sid "serde", ["std"])].
Definition app_extra :=
  scoped app_graph [(sid "app", ["default"; "extra"]); (sid "serde", ["derive"; "std"])].
Definition tool_base := scoped tool_graph [(sid "serde", ["std"])].
Definition tool_derive := scoped tool_graph [(sid "serde", ["derive"; "std"])].

Definition app_root : RootPackage :=
  {| root_name := "app"; baseline_resolve := app_base;
     feature_resolves := [("default", app_default); ("extra", app_extra)] |}.

Definition app_root_rev : RootPackage :=
  {| root_name := "app"; baseline_resolve := app_base;
     feature_resolves := [("extra", app_extra); ("default", app_default)] |}.

Definition tool_root : RootPackage :=
  {| root_name := "tool"; baseline_resolve := tool_base;
     feature_resolves := [("derive", tool_derive)] |}.

(** The states the tracker goes through for [app]: after its baseline
    pass, then after the pass of its feature [extra]. *)
Definition after_base : BMap.t PackageId ResolvedPackage :=
  match mark_required "app" app_base untracked with Some st => st | None => [] end.

Definition after_extra : BMap.t PackageId ResolvedPackage :=
  match activate ("app", "extra") app_extra after_base with Some st => st | None => [] end.

Definition lookup (id : PackageId) (st : BMap.t PackageId ResolvedPackage) :=
  match BMap.get id st with Some r => r | None => fresh "none" [] [] end.
(** [serde] as the tracker leaves it when its two features and its edge to
    [serde_derive] are activated only by the root feature [("app", "extra")]
    of a workspace of two root packages. *)
Definition activated_by_extra : Optionality := Optional [] [("app", "extra")].

Definition homogeneous_rpkg : ResolvedPackage :=
  {| rpkg_pkg := package "serde";
     rpkg_deps := [((sid "serde_derive", Normal), edge "serde_derive" activated_by_extra)];
     rpkg_features := [("derive", activated_by_extra); ("std", activated_by_extra)];
     rpkg_checksum := None |}.

Definition homogeneous_rpkgs : BMap.t PackageId ResolvedPackage :=
  [(sid "app", app_rpkg); (sid "serde", homogeneous_rpkg)].

(** [app] with two normal declarations of [serde], one per platform. *)
Definition platform_decl (name : string) (p : option Platform) : Dependency :=
  {| dep_name_in_toml := name; dep_kind := Normal; dep_optional := false;
     dep_platform := p |}.

Definition platform_resolve : Resolve :=
  {| resolve_graph :=
       [(sid "app", [(sid "serde", [platform_decl "serde" (Some "cfg(unix)");
                                    platform_decl "serde" (Some "cfg(windows)")])]);
        (sid "serde", [])];
     resolve_features := resolve_features full_resolve;
     resolve_checksums := resolve_checksums full_resolve |}.

End Sample.

(* ================================================================== *)
(** * Properties *)

(** ** Facts on the simplifier *)

Lemma set_optionality_twice a b d :
  set_optionality a (set_optionality b d) = set_optionality a d.
Proof. destruct d; reflexivity. Qed.

Lemma set_optionality_same d : set_optionality (optionality d) d = d.
Proof. destruct d; reflexivity. Qed.

Lemma values_mut_compose {K V} `{Ord K} (f g : V -> V) (m : BMap.t K V) :
  BMap.values_mut f (BMap.values_mut g m) = BMap.values_mut (fun v => f (g v)) m.
Proof. unfold BMap.values_mut. rewrite map_map. reflexivity. Qed.

Lemma values_mut_ext {K V} `{Ord K} (f g : V -> V) (m : BMap.t K V) :
  (forall v, In v (BMap.values m) -> f v = g v) ->
  BMap.values_mut f m = BMap.values_mut g m.
Proof.
  intros Hfg. unfold BMap.values_mut. apply map_ext_in.
  intros [k v] Hin. simpl. f_equal. apply Hfg.
  apply (in_map snd) in Hin. exact Hin.
Qed.

Lemma all_eq_spec l :
  all_eq l = true <-> (forall x y, In x l -> In y l -> x = y).
Proof.
  destruct l as [|a l]; simpl.
  - split; [intros _ x y []|reflexivity].
  - rewrite forallb_forall. unfold Optionality_eqb. split.
    + intros H x y Hx Hy.
      assert (Ha : forall z, a = z \/ In z l -> z = a).
      { intros z [<-|Hz]; [reflexivity|].
        specialize (H z Hz). destruct (Optionality_eq_dec z a); congruence. }
      rewrite (Ha x Hx), (Ha y Hy). reflexivity.
    + intros H x Hx. rewrite (H x a (or_intror Hx) (or_introl eq_refl)).
      destruct (Optionality_eq_dec a a); congruence.
Qed.

Lemma promote_universal_idem n o :
  promote_universal n (promote_universal n o) = promote_universal n o.
Proof.
  destruct o as [|rb af]; simpl; [reflexivity|].
  destruct (Nat.eqb (BSet.len rb) n) eqn:E; simpl; rewrite ?E; reflexivity.
Qed.

(** The third rule leaves nothing optional among the non-development
    items. *)
Lemma iter_optionality_collapse r :
  Forall (fun o => o = Required)
         (iter_optionality (iter_optionality_mut (fun _ => Required) r)).
Proof.
  unfold iter_optionality, iter_optionality_mut; simpl.
  apply Forall_app. split.
  - apply Forall_forall. intros o Hin.
    apply in_map_iff in Hin as [[k d] [<- Hin]].
    apply filter_In in Hin as [Hin Hk].
    apply in_map_iff in Hin as [[k' d'] [Heq _]].
    simpl in *. destruct (is_development k') eqn:E; inversion Heq; subst.
    + rewrite E in Hk. discriminate.
    + reflexivity.
  - apply Forall_forall. intros o Hin.
    unfold BMap.values, BMap.values_mut in Hin. rewrite map_map in Hin.
    apply in_map_iff in Hin as [kv [<- _]]. reflexivity.
Qed.

Lemma rules_1_2_idem n r :
  simplify_rules_1_2 n (simplify_rules_1_2 n r) = simplify_rules_1_2 n r.
Proof.
  destruct r as [p ds fs c].
  unfold simplify_rules_1_2, force_development, iter_optionality_mut, set_deps; simpl.
  f_equal.
  - rewrite !map_map. apply map_ext. intros [k d]; simpl.
    destruct (is_development k) eqn:E; simpl; repeat (rewrite E; simpl);
      rewrite set_optionality_twice; [reflexivity|].
    simpl. rewrite promote_universal_idem. reflexivity.
  - rewrite values_mut_compose. apply values_mut_ext. intros v _.
    apply promote_universal_idem.
Qed.

(** After the first two rules, every development edge is [Required]. *)
Lemma rules_1_2_development n r k d :
  In (k, d) (rpkg_deps (simplify_rules_1_2 n r)) -> is_development k = true ->
  optionality d = Required.
Proof.
  unfold simplify_rules_1_2, force_development, iter_optionality_mut, set_deps; simpl.
  rewrite map_map. intros Hin Hk. apply in_map_iff in Hin as [[k' d'] [Heq _]].
  simpl in Heq. destruct (is_development k') eqn:E; simpl in Heq;
    repeat (rewrite E in Heq; simpl in Heq); inversion Heq; subst; [reflexivity|].
  rewrite E in Hk. discriminate.
Qed.

Lemma collapse_fixed n r :
  let r2 := iter_optionality_mut (fun _ => Required) (simplify_rules_1_2 n r) in
  simplify_rules_1_2 n r2 = r2 /\ iter_optionality_mut (fun _ => Required) r2 = r2.
Proof.
  destruct r as [p ds fs c].
  unfold simplify_rules_1_2, force_development, iter_optionality_mut, set_deps; simpl.
  split; f_equal; rewrite ?map_map; try (apply map_ext; intros [k d]; simpl;
    destruct (is_development k) eqn:E; simpl; repeat (rewrite E; simpl);
    rewrite ?set_optionality_twice; reflexivity);
  rewrite !values_mut_compose; reflexivity.
Qed.

Lemma simplify_rpkg_idem n r :
  simplify_rpkg n (simplify_rpkg n r) = simplify_rpkg n r.
Proof.
  unfold simplify_rpkg; cbv zeta.
  destruct (all_eq (iter_optionality (simplify_rules_1_2 n r))) eqn:E.
  - destruct (collapse_fixed n r) as [H1 H2]. rewrite H1.
    pose proof (iter_optionality_collapse (simplify_rules_1_2 n r)) as HF.
    assert (Hall : all_eq (iter_optionality
               (iter_optionality_mut (fun _ => Required) (simplify_rules_1_2 n r))) = true).
    { apply all_eq_spec. intros x y Hx Hy.
      rewrite Forall_forall in HF. rewrite (HF x Hx), (HF y Hy). reflexivity. }
    rewrite Hall, H2. reflexivity.
  - rewrite rules_1_2_idem, E. reflexivity.
Qed.

(** What [simplify_rpkg] does to each edge and feature, with [c] the outcome
    of the third rule's test. *)
Lemma simplify_rpkg_items n r :
  exists c : bool,
    rpkg_deps (simplify_rpkg n r) =
      map (fun kv => (fst kv,
                      if is_development (fst kv) || c
                      then set_optionality Required (snd kv)
                      else set_optionality (promote_universal n (optionality (snd kv))) (snd kv)))
          (rpkg_deps r) /\
    rpkg_features (simplify_rpkg n r) =
      BMap.values_mut (fun o => if c then Required else promote_universal n o)
                      (rpkg_features r).
Proof.
  unfold simplify_rpkg; cbv zeta.
  destruct (all_eq (iter_optionality (simplify_rules_1_2 n r))) eqn:E;
    [exists true | exists false];
  (destruct r as [p ds fs ch];
   unfold simplify_rules_1_2, force_development, iter_optionality_mut, set_deps; simpl;
   split; [rewrite ?map_map; apply map_ext; intros [k d]; simpl;
           destruct (is_development k) eqn:Ek; simpl; repeat (rewrite Ek; simpl);
           rewrite ?set_optionality_twice; reflexivity
          | rewrite ?values_mut_compose; reflexivity]).
Qed.

Lemma in_values_mut {K V} `{Ord K} (f : V -> V) (m : BMap.t K V) k v :
  In (k, v) (BMap.values_mut f m) <-> exists v0, v = f v0 /\ In (k, v0) m.
Proof.
  unfold BMap.values_mut. rewrite in_map_iff. split.
  - intros [[k0 v0] [Heq Hin]]. inversion Heq; subst. exists v0. auto.
  - intros [v0 [-> Hin]]. exists (k, v0). auto.
Qed.

Lemma get_values_mut_in {K V} `{Ord K} (f : V -> V) (m : BMap.t K V) k v :
  In (k, v) m -> In (k, f v) (BMap.values_mut f m).
Proof. intros Hin. apply in_values_mut. eauto. Qed.

(** [simplify_optionality] works package by package. *)
Lemma simplify_optionality_get m n id :
  BMap.get id (simplify_optionality m n) = option_map (simplify_rpkg n) (BMap.get id m).
Proof. apply BMap.get_values_mut. Qed.

Lemma values_mut_keys {K V} `{Ord K} (f : V -> V) (m : BMap.t K V) :
  map fst (BMap.values_mut f m) = map fst m.
Proof. unfold BMap.values_mut. rewrite map_map. reflexivity. Qed.

(** ** C2 *)

(** C2: [simplify_optionality] is idempotent: simplifying the simplified
    packages again, with the same number of root packages, changes nothing. *)
Theorem simplify_optionality_idempotent (m : BMap.t PackageId ResolvedPackage) (n : nat) :
  simplify_optionality (simplify_optionality m n) n = simplify_optionality m n.
Proof.
  unfold simplify_optionality. rewrite values_mut_compose.
  apply values_mut_ext. intros r _. apply simplify_rpkg_idem.
Qed.

(** ** C3 *)

(** C3: universal-requirement promotion. Every edge and every feature of a
    package whose optionality is [Optional] with a [required_by_pkgs] set of
    as many elements as there are root packages is [Required] after
    [simplify_optionality] (the rest of the edge unchanged). *)
Theorem simplify_promotes_universal (m : BMap.t PackageId ResolvedPackage) (n : nat)
  (id : PackageId) (r : ResolvedPackage) :
  In (id, r) m ->
  In (id, simplify_rpkg n r) (simplify_optionality m n) /\
  (forall k d rb af,
     In (k, d) (rpkg_deps r) -> optionality d = Optional rb af -> BSet.len rb = n ->
     In (k, set_optionality Required d) (rpkg_deps (simplify_rpkg n r))) /\
  (forall f rb af,
     In (f, Optional rb af) (rpkg_features r) -> BSet.len rb = n ->
     In (f, Required) (rpkg_features (simplify_rpkg n r))).
Proof.
  intros Hin. destruct (simplify_rpkg_items n r) as [c [Hd Hf]].
  split; [apply get_values_mut_in; exact Hin|]. split.
  - intros k d rb af Hkd Ho Hlen. rewrite Hd. apply in_map_iff.
    exists (k, d). split; [|exact Hkd]. simpl.
    destruct (is_development k || c); [reflexivity|].
    rewrite Ho. simpl. rewrite Hlen, Nat.eqb_refl. reflexivity.
  - intros f rb af Hfo Hlen. rewrite Hf.
    pose proof (get_values_mut_in (fun o => if c then Required else promote_universal n o)
                  _ _ _ Hfo) as Hr.
    simpl in Hr. rewrite Hlen, Nat.eqb_refl in Hr. destruct c; exact Hr.
Qed.

(** ** C4 *)

(** C4: after [simplify_optionality], every development edge of every
    package is [Required], whatever its accumulated sets were. *)
Theorem simplify_forces_development (m : BMap.t PackageId ResolvedPackage) (n : nat)
  (id : PackageId) (r : ResolvedPackage) (k : PackageId * DependencyKind)
  (d : ResolvedDependency) :
  In (id, r) (simplify_optionality m n) -> In (k, d) (rpkg_deps r) ->
  is_development k = true -> optionality d = Required.
Proof.
  intros Hr Hkd Hk. apply in_values_mut in Hr as [r0 [-> _]].
  destruct (simplify_rpkg_items n r0) as [c [Hd _]]. rewrite Hd in Hkd.
  apply in_map_iff in Hkd as [[k0 d0] [Heq _]]. simpl in Heq.
  inversion Heq; subst. rewrite Hk. reflexivity.
Qed.

(** ** C5 *)

(** C5: homogeneous-package collapse. When, after the first two rules, the
    optionalities of a package's own features and non-development edges are
    pairwise equal, [simplify_optionality] makes all of them [Required]
    (keeping the edges and features), and the result for every other
    package, its edges to this one included, does not depend on this
    package. *)
Theorem simplify_collapses_homogeneous (m : BMap.t PackageId ResolvedPackage) (n : nat)
  (id : PackageId) (r : ResolvedPackage) :
  In (id, r) m ->
  (forall x y, In x (iter_optionality (simplify_rules_1_2 n r)) ->
               In y (iter_optionality (simplify_rules_1_2 n r)) -> x = y) ->
  In (id, simplify_rpkg n r) (simplify_optionality m n) /\
  Forall (fun o => o = Required) (iter_optionality (simplify_rpkg n r)) /\
  map fst (rpkg_deps (simplify_rpkg n r)) = map fst (rpkg_deps r) /\
  map fst (rpkg_features (simplify_rpkg n r)) = map fst (rpkg_features r) /\
  (forall m' : BMap.t PackageId ResolvedPackage,
     (forall id', id' <> id -> BMap.get id' m' = BMap.get id' m) ->
     forall id', id' <> id ->
       BMap.get id' (simplify_optionality m' n) = BMap.get id' (simplify_optionality m n)).
Proof.
  intros Hin Heq. apply all_eq_spec in Heq.
  destruct (simplify_rpkg_items n r) as [c [Hd Hf]].
  split; [apply get_values_mut_in; exact Hin|]. split; [|split; [|split]].
  - unfold simplify_rpkg; cbv zeta. rewrite Heq. apply iter_optionality_collapse.
  - rewrite Hd, map_map. reflexivity.
  - rewrite Hf, values_mut_keys. reflexivity.
  - intros m' Hm' id' Hne. rewrite !simplify_optionality_get, Hm' by exact Hne.
    reflexivity.
Qed.

(** ** C10 *)

(** C10: [Required] is absorbing. [required_by] and [activated_by] leave
    [Required] as it is, so does the first rule, and an edge or feature that
    is [Required] is still [Required] (and otherwise unchanged) after
    [simplify_optionality]. *)
Theorem required_is_absorbing (m : BMap.t PackageId ResolvedPackage) (n : nat)
  (id : PackageId) (r : ResolvedPackage) :
  In (id, r) m ->
  (forall p, required_by p Required = Required) /\
  (forall rf, activated_by rf Required = Required) /\
  promote_universal n Required = Required /\
  In (id, simplify_rpkg n r) (simplify_optionality m n) /\
  (forall k d, In (k, d) (rpkg_deps r) -> optionality d = Required ->
               In (k, d) (rpkg_deps (simplify_rpkg n r))) /\
  (forall f, In (f, Required) (rpkg_features r) ->
             In (f, Required) (rpkg_features (simplify_rpkg n r))).
Proof.
  intros Hin. destruct (simplify_rpkg_items n r) as [c [Hd Hf]].
  split; [reflexivity|]. split; [reflexivity|]. split; [reflexivity|].
  split; [apply get_values_mut_in; exact Hin|]. split.
  - intros k d Hkd Ho. rewrite Hd. apply in_map_iff.
    exists (k, d). split; [|exact Hkd]. simpl. rewrite Ho.
    destruct (is_development k || c); simpl; rewrite <- Ho, set_optionality_same; reflexivity.
  - intros f Hfo. rewrite Hf.
    pose proof (get_values_mut_in (fun o => if c then Required else promote_universal n o)
                  _ _ _ Hfo) as Hr.
    destruct c; exact Hr.
Qed.

(** ** Witnesses on the sample workspace *)

Section SimplifierWitnesses.
Local Open Scope string_scope.

Lemma simplify_promotes_universal_witness :
In (Sample.sid "app", Sample.app_rpkg) Sample.rpkgs /\
In ((Sample.sid "serde", Normal),
    set_optionality Required (Sample.edge "serde" (Optional ["app"; "tool"] [])))
   (rpkg_deps (simplify_rpkg 2 Sample.app_rpkg)) /\
In ("default", Required) (rpkg_features (simplify_rpkg 2 Sample.app_rpkg)).
Proof.
assert (Hin : In (Sample.sid "app", Sample.app_rpkg) Sample.rpkgs)
  by (simpl; left; reflexivity).
destruct (simplify_promotes_universal Sample.rpkgs 2 _ _ Hin) as [_ [Hd Hf]].
split; [exact Hin|]. split.
- apply (Hd _ _ ["app"; "tool"] []); [simpl; right; left | |]; reflexivity.
- apply (Hf _ ["app"; "tool"] []); [simpl; left|]; reflexivity.
Defined.

Lemma simplify_forces_development_witness :
In (Sample.sid "app", simplify_rpkg 2 Sample.app_rpkg) (simplify_optionality Sample.rpkgs 2) /\
In ((Sample.sid "rand", Development), set_optionality Required (Sample.edge "rand" (Optional [] [])))
   (rpkg_deps (simplify_rpkg 2 Sample.app_rpkg)) /\
is_development (Sample.sid "rand", Development) = true /\
optionality (set_optionality Required (Sample.edge "rand" (Optional [] []))) = Required.
Proof.
assert (H1 : In (Sample.sid "app", simplify_rpkg 2 Sample.app_rpkg)
                (simplify_optionality Sample.rpkgs 2)) by (simpl; left; reflexivity).
assert (H2 : In ((Sample.sid "rand", Development),
                 set_optionality Required (Sample.edge "rand" (Optional [] [])))
                (rpkg_deps (simplify_rpkg 2 Sample.app_rpkg))) by (simpl; left; reflexivity).
split; [exact H1|]. split; [exact H2|]. split; [reflexivity|].
exact (simplify_forces_development Sample.rpkgs 2 _ _ _ _ H1 H2 eq_refl).
Defined.

(** Two features and an edge of [serde] activated only by [("app", "extra")],
    with two root packages: rules 1 and 2 leave them equal and [Optional],
    and the package collapses to [Required]. *)
Lemma simplify_collapses_homogeneous_witness :
In (Sample.sid "serde", Sample.homogeneous_rpkg) Sample.homogeneous_rpkgs /\
iter_optionality (simplify_rules_1_2 2 Sample.homogeneous_rpkg) =
  [Sample.activated_by_extra; Sample.activated_by_extra; Sample.activated_by_extra] /\
Sample.activated_by_extra <> Required /\
Forall (fun o => o = Required) (iter_optionality (simplify_rpkg 2 Sample.homogeneous_rpkg)).
Proof.
assert (Hin : In (Sample.sid "serde", Sample.homogeneous_rpkg) Sample.homogeneous_rpkgs)
  by (simpl; right; left; reflexivity).
assert (Hit : iter_optionality (simplify_rules_1_2 2 Sample.homogeneous_rpkg)
              = [Sample.activated_by_extra; Sample.activated_by_extra;
                 Sample.activated_by_extra]) by reflexivity.
split; [exact Hin|]. split; [exact Hit|]. split; [discriminate|].
apply (simplify_collapses_homogeneous Sample.homogeneous_rpkgs 2 _ _ Hin).
rewrite Hit. simpl. intros x y Hx Hy.
destruct Hx as [<-|[<-|[<-|[]]]]; destruct Hy as [<-|[<-|[<-|[]]]]; reflexivity.
Defined.

Lemma required_is_absorbing_witness :
In ("std", Required) (rpkg_features (simplify_rpkg 0 Sample.app_rpkg)).
Proof.
assert (Hin : In (Sample.sid "app", Sample.app_rpkg) Sample.rpkgs)
  by (simpl; left; reflexivity).
destruct (required_is_absorbing Sample.rpkgs 0 _ _ Hin) as [_ [_ [_ [_ [_ Hf]]]]].
apply Hf. simpl. right. left. reflexivity.
Defined.

End SimplifierWitnesses.

(** ** C6 *)

Lemma no_and_or_singles (l : list string) :
  no_and (Or (map Single l)).
Proof. induction l as [|a l IH]; simpl; [exact I | split; [exact I | exact IH]]. Qed.

(** C6: [to_expr] maps [Required] to [True], and [Optional] to the
    disjunction of one atom [var ? "<root-package>/<feature>"] per element of
    [activated_by_features] followed by one atom [var ? "<root-package>"] per
    element of [required_by_pkgs]; the empty disjunction is false, and no
    conjunction is ever produced ([BoolExpr] has no negation). *)
Theorem to_expr_disjunction (root_features_var : string) :
  to_expr Required root_features_var = BTrue /\
  (forall required_by_pkgs activated_by_features,
     to_expr (Optional required_by_pkgs activated_by_features) root_features_var =
     Or (map (fun rf => Single (root_features_var ++ " ? " ++
                                debug_str (fst rf ++ "/" ++ snd rf)))%string
             activated_by_features
         ++ map (fun p => Single (root_features_var ++ " ? " ++ debug_str p))%string
                required_by_pkgs)) /\
  (forall atom, eval atom (to_expr (Optional BSet.empty BSet.empty) root_features_var) = false) /\
  (forall o, no_and (to_expr o root_features_var)).
Proof.
  split; [reflexivity|]. split; [reflexivity|]. split; [reflexivity|].
  intros [|rb af]; simpl; [exact I|].
  rewrite <- (map_map (fun rf => (root_features_var ++ " ? " ++ debug_str (display_root_feature rf))%string) Single),
          <- (map_map (fun p => (root_features_var ++ " ? " ++ debug_str p)%string) Single),
          <- map_app.
  apply no_and_or_singles.
Qed.

(** ** C9 *)

Lemma dep_items_skip_no_lib ecn pkgs_by_id pkg gs1 gs2 dep_id ds dep_pkg :
  BMap.get dep_id pkgs_by_id = Some dep_pkg ->
  find is_lib (pkg_targets dep_pkg) = None ->
  dep_items ecn pkgs_by_id pkg (gs1 ++ (dep_id, ds) :: gs2) =
  dep_items ecn pkgs_by_id pkg (gs1 ++ gs2).
Proof.
  intros Hp Hl. induction gs1 as [|g gs1 IH]; simpl.
  - rewrite Hp, Hl. destruct (dep_items ecn pkgs_by_id pkg gs2); reflexivity.
  - rewrite IH. reflexivity.
Qed.

(** C9: missing-linkage recovery. A dependency whose resolved target
    package has no library target is dropped by [ResolvedPackage::new]
    without failing: the result is the one built from a resolution without
    that dependency, where the other declarations are merged as usual and
    the features and checksum are the same. *)
Theorem new_skips_targets_without_lib
  (extern_crate_name : PackageId -> PackageId -> Target -> option string)
  (prefetch_git : string -> string -> option string)
  (pkg : Package) (pkgs_by_id : BMap.t PackageId Package) (r1 r2 : Resolve)
  (gs1 gs2 : list (PackageId * list Dependency)) (dep_id : PackageId)
  (ds : list Dependency) (dep_pkg : Package) :
  BMap.get dep_id pkgs_by_id = Some dep_pkg ->
  find is_lib (pkg_targets dep_pkg) = None ->
  deps r1 (package_id pkg) = gs1 ++ (dep_id, ds) :: gs2 ->
  deps r2 (package_id pkg) = gs1 ++ gs2 ->
  resolve_features r1 = resolve_features r2 ->
  resolve_checksums r1 = resolve_checksums r2 ->
  ResolvedPackage_new extern_crate_name prefetch_git pkg pkgs_by_id r1 =
  ResolvedPackage_new extern_crate_name prefetch_git pkg pkgs_by_id r2.
Proof.
  intros Hp Hl H1 H2 Hf Hc. unfold ResolvedPackage_new.
  rewrite H1, H2, (dep_items_skip_no_lib _ _ _ _ _ _ _ _ Hp Hl).
  unfold features, checksum_of. rewrite Hf, Hc. reflexivity.
Qed.

Lemma new_skips_targets_without_lib_witness :
  ResolvedPackage_new Sample.extern_crate_name Sample.prefetch_git (Sample.package "app")
    Sample.pkgs_by_id Sample.full_resolve =
  ResolvedPackage_new Sample.extern_crate_name Sample.prefetch_git (Sample.package "app")
    Sample.pkgs_by_id Sample.resolve_without_cli /\
  option_map (fun r => map fst (rpkg_deps r))
    (ResolvedPackage_new Sample.extern_crate_name Sample.prefetch_git (Sample.package "app")
       Sample.pkgs_by_id Sample.full_resolve) =
  Some [(Sample.sid "serde", Normal); (Sample.sid "serde", Development)].
Proof.
  split; [|vm_compute; reflexivity].
  apply (new_skips_targets_without_lib _ _ _ _ _ _ []
           [(Sample.sid "serde", [Sample.decl "serde" Normal; Sample.decl "serde" Development])]
           (Sample.sid "cli") [Sample.decl "cli" Build] (Sample.bin_package "cli"));
    vm_compute; reflexivity.
Defined.

(** ** The passes as update sequences *)

Lemma obind_some {A} (m : option A) : obind m Some = m.
Proof. destruct m; reflexivity. Qed.

Lemma obind_ext {A B} (m : option A) (f g : A -> option B) :
  (forall a, f a = g a) -> obind m f = obind m g.
Proof. intros H. destruct m; simpl; auto. Qed.

Lemma fold_steps_app {S X} (step : X -> S -> option S) xs ys s :
  fold_steps step (xs ++ ys) s = obind (fold_steps step xs s) (fold_steps step ys).
Proof.
  revert s. induction xs as [|x xs IH]; intros s; simpl; [reflexivity|].
  rewrite obind_assoc. apply obind_ext. exact IH.
Qed.

Lemma get_mut_ext {K V} `{Ord K} (k : K) (f g : V -> option V) (m : BMap.t K V) :
  (forall v, f v = g v) -> BMap.get_mut k f m = BMap.get_mut k g m.
Proof.
  intros Hfg. induction m as [|[k' v] m IH]; simpl; [reflexivity|].
  rewrite Hfg, IH. reflexivity.
Qed.

Lemma fold_steps_one_pkg id (h : ResolvedPackage -> option ResolvedPackage) ops st :
  Forall (fun op => op_id op = id) ops ->
  obind (BMap.get_mut id h st) (fold_steps run_op ops) =
  BMap.get_mut id (fun r => obind (h r) (fold_steps apply_op ops)) st.
Proof.
  intros Hids. revert h. induction ops as [|op ops IH]; intros h; simpl.
  - rewrite obind_some. apply get_mut_ext. intros r. rewrite obind_some. reflexivity.
  - apply Forall_cons_iff in Hids as [Hop Hrest].
    rewrite <- obind_assoc. unfold run_op at 1. rewrite Hop, BMap.get_mut_fuse.
    rewrite (IH Hrest). apply get_mut_ext. intros r.
    rewrite obind_assoc. reflexivity.
Qed.

Lemma record_eta_features r : set_features (rpkg_features r) r = r.
Proof. destruct r; reflexivity. Qed.

Lemma record_eta_deps r : set_deps (rpkg_deps r) r = r.
Proof. destruct r; reflexivity. Qed.

Lemma feature_ops_apply g id fs_list r :
  fold_steps apply_op (map (fun f => {| op_id := id; op_loc := LFeat f; op_fn := g |}) fs_list) r =
  obind (fold_steps (fun f fs => BMap.get_mut f (fun o => Some (g o)) fs) fs_list (rpkg_features r))
        (fun fs => Some (set_features fs r)).
Proof.
  revert r. induction fs_list as [|f fs_list IH]; intros r; simpl.
  - rewrite record_eta_features. reflexivity.
  - unfold apply_op at 1; simpl.
    destruct (BMap.get_mut f (fun o => Some (g o)) (rpkg_features r)) as [fs|]; simpl;
      [|reflexivity].
    rewrite IH. simpl.
    destruct (fold_steps (fun f fs => BMap.get_mut f (fun o => Some (g o)) fs) fs_list fs);
      simpl; [|reflexivity].
    destruct r; reflexivity.
Qed.

Lemma dep_ops_apply g id ds r :
  fold_steps apply_op
    (map (fun dep : PackageId * list Dependency =>
            {| op_id := id; op_loc := LDeps (fst dep); op_fn := g |}) ds) r =
  Some (set_deps (fold_left (fun acc (dep : PackageId * list Dependency) =>
                               iter_deps_with_id_mut (fst dep) (upd_dep g) acc)
                            ds (rpkg_deps r)) r).
Proof.
  revert r. induction ds as [|dep ds IH]; intros r; simpl.
  - rewrite record_eta_deps. reflexivity.
  - unfold apply_op at 1; simpl. rewrite IH. destruct r; reflexivity.
Qed.

Lemma visit_pkg_ops g resolve id r :
  visit_pkg g resolve id r = fold_steps apply_op (tl (pkg_ops g resolve id)) r.
Proof.
  unfold pkg_ops, visit_pkg; simpl.
  rewrite fold_steps_app, feature_ops_apply.
  unfold Feature.
  destruct (fold_steps (fun f fs => BMap.get_mut f (fun o => Some (g o)) fs)
                       (features resolve id) (rpkg_features r)) as [fs|]; simpl;
    [|reflexivity].
  rewrite dep_ops_apply. reflexivity.
Qed.

Lemma pkg_ops_ids g resolve id : Forall (fun op => op_id op = id) (pkg_ops g resolve id).
Proof.
  unfold pkg_ops. constructor; [reflexivity|].
  apply Forall_app; split; apply Forall_forall; intros op Hin;
    apply in_map_iff in Hin as [x [<- _]]; reflexivity.
Qed.

Lemma visit_as_ops g resolve st :
  visit g resolve st = fold_steps run_op (visit_ops g resolve) st.
Proof.
  unfold visit, visit_ops. revert st.
  induction (iter resolve) as [|id ids IH]; intros st; [reflexivity|].
  cbn [flat_map fold_steps]. rewrite fold_steps_app.
  assert (Hpkg : fold_steps run_op (pkg_ops g resolve id) st =
                 BMap.get_mut id (visit_pkg g resolve id) st).
  { pose proof (pkg_ops_ids g resolve id) as Hids.
    unfold pkg_ops in *. simpl. apply Forall_cons_iff in Hids as [_ Hrest].
    unfold run_op at 1; simpl.
    rewrite (fold_steps_one_pkg id _ _ st Hrest).
    apply get_mut_ext. intros r. simpl. rewrite visit_pkg_ops. reflexivity. }
  rewrite Hpkg. apply obind_ext. exact IH.
Qed.

Lemma track_as_ops roots st :
  track roots st = fold_steps run_op (flat_map root_ops roots) st.
Proof.
  unfold track. revert st. induction roots as [|r roots IH]; intros st; simpl;
    [reflexivity|].
  rewrite fold_steps_app. unfold process_root, root_ops.
  rewrite fold_steps_app. unfold mark_required. rewrite visit_as_ops.
  rewrite !obind_assoc. apply obind_ext. intros s.
  assert (Hf : forall frs s,
             fold_steps (fun fr st => activate (root_name r, fst fr) (snd fr) st) frs s =
             fold_steps run_op
               (flat_map (fun fr => visit_ops (activated_by (root_name r, fst fr)) (snd fr)) frs) s).
  { induction frs as [|fr frs IHf]; intros s'; simpl; [reflexivity|].
    rewrite fold_steps_app. unfold activate. rewrite visit_as_ops.
    apply obind_ext. exact IHf. }
  rewrite Hf. apply obind_ext. intros s'. apply IH.
Qed.

(** ** Updates that commute *)

Lemma range_mut_comm {K V} `{OrdLaws K} (lo1 hi1 lo2 hi2 : K) (f1 f2 : V -> V) (m : BMap.t K V) :
  (forall v, f1 (f2 v) = f2 (f1 v)) ->
  BMap.range_mut lo1 hi1 f1 (BMap.range_mut lo2 hi2 f2 m) =
  BMap.range_mut lo2 hi2 f2 (BMap.range_mut lo1 hi1 f1 m).
Proof.
  intros Hc. unfold BMap.range_mut. rewrite !map_map. apply map_ext.
  intros [k v]; simpl.
  destruct (BMap.in_range lo1 hi1 k) eqn:E1, (BMap.in_range lo2 hi2 k) eqn:E2; simpl;
    rewrite ?E1, ?E2; try reflexivity.
  rewrite Hc. reflexivity.
Qed.

Lemma upd_dep_comm g1 g2 d :
  commute g1 g2 -> upd_dep g1 (upd_dep g2 d) = upd_dep g2 (upd_dep g1 d).
Proof.
  intros Hc. unfold upd_dep. simpl. rewrite !set_optionality_twice, Hc. reflexivity.
Qed.

Lemma apply_loc_lpkg g r : apply_loc LPkg g r = Some r.
Proof. reflexivity. Qed.

Lemma obind_lpkg m g : obind m (apply_loc LPkg g) = m.
Proof. destruct m; reflexivity. Qed.

Lemma apply_loc_comm g1 g2 l1 l2 r :
  commute g1 g2 ->
  obind (apply_loc l1 g1 r) (apply_loc l2 g2) = obind (apply_loc l2 g2 r) (apply_loc l1 g1).
Proof.
  intros Hc.
  destruct l1 as [|f1|d1]; [rewrite apply_loc_lpkg, obind_lpkg; reflexivity|..];
    (destruct l2 as [|f2|d2]; [rewrite apply_loc_lpkg, obind_lpkg; reflexivity|..]).
  - (* two features *)
    unfold apply_loc. rewrite !obind_assoc.
    transitivity (obind (obind (BMap.get_mut f1 (fun o => Some (g1 o)) (rpkg_features r))
                               (BMap.get_mut f2 (fun o => Some (g2 o))))
                        (fun fs => Some (set_features fs r))).
    { rewrite obind_assoc. apply obind_ext. intros fs. simpl.
      destruct (BMap.get_mut f2 _ fs); reflexivity. }
    transitivity (obind (obind (BMap.get_mut f2 (fun o => Some (g2 o)) (rpkg_features r))
                               (BMap.get_mut f1 (fun o => Some (g1 o))))
                        (fun fs => Some (set_features fs r))).
    2: { rewrite obind_assoc. apply obind_ext. intros fs. simpl.
         destruct (BMap.get_mut f1 _ fs); reflexivity. }
    f_equal. destruct (string_dec f1 f2) as [<-|Hne].
    + apply BMap.get_mut_comm_eq. intros v. simpl. rewrite Hc. reflexivity.
    + apply BMap.get_mut_comm_ne. exact Hne.
  - (* a feature and edges *)
    simpl. destruct (BMap.get_mut f1 _ (rpkg_features r)); simpl; [|reflexivity].
    destruct r; reflexivity.
  - (* edges and a feature *)
    simpl. destruct (BMap.get_mut f2 _ (rpkg_features r)); simpl; [|reflexivity].
    destruct r; reflexivity.
  - (* two edge groups *)
    simpl. unfold iter_deps_with_id_mut. rewrite (range_mut_comm (d2, Normal)).
    + destruct r; reflexivity.
    + intros d. apply upd_dep_comm. intros o. symmetry. apply Hc.
Qed.

Lemma run_op_comm o1 o2 st :
  commute (op_fn o1) (op_fn o2) ->
  obind (run_op o1 st) (run_op o2) = obind (run_op o2 st) (run_op o1).
Proof.
  intros Hc. unfold run_op.
  destruct (eq_dec_of (op_id o1) (op_id o2)) as [E|Hne].
  - rewrite E. apply BMap.get_mut_comm_eq. intros r. apply apply_loc_comm. exact Hc.
  - apply BMap.get_mut_comm_ne. exact Hne.
Qed.

Lemma commute_sym g1 g2 : commute g1 g2 -> commute g2 g1.
Proof. intros Hc o. symmetry. apply Hc. Qed.

Lemma fold_steps_swap_one {S X} (step : X -> S -> option S) x ys s :
  (forall y s, In y ys -> obind (step x s) (step y) = obind (step y s) (step x)) ->
  fold_steps step (x :: ys) s = fold_steps step (ys ++ [x]) s.
Proof.
  revert s. induction ys as [|y ys IH]; intros s Hc; [reflexivity|].
  cbn [fold_steps app].
  rewrite <- obind_assoc, (Hc y s (or_introl eq_refl)), obind_assoc.
  apply obind_ext. intros s'. rewrite <- IH; [reflexivity|].
  intros y' s'' Hin. apply Hc. right. exact Hin.
Qed.

Lemma fold_steps_swap_blocks {S X} (step : X -> S -> option S) xs ys s :
  (forall x y s, In x xs -> In y ys -> obind (step x s) (step y) = obind (step y s) (step x)) ->
  fold_steps step (xs ++ ys) s = fold_steps step (ys ++ xs) s.
Proof.
  revert s. induction xs as [|x xs IH]; intros s Hc.
  - rewrite app_nil_r. reflexivity.
  - cbn [app fold_steps].
    rewrite (obind_ext _ _ (fold_steps step (ys ++ xs))).
    2: { intros s'. apply IH. intros x' y s'' Hx Hy. apply Hc; [right|]; assumption. }
    change (fold_steps step ((x :: ys) ++ xs) s = fold_steps step (ys ++ x :: xs) s).
    rewrite fold_steps_app, fold_steps_swap_one.
    + rewrite <- fold_steps_app, <- app_assoc. reflexivity.
    + intros y s' Hy. apply Hc; [left; reflexivity | exact Hy].
Qed.

(** Blocks of updates whose members all commute can be permuted. *)
Lemma fold_flat_map_perm {X} (h : X -> list Op) l1 l2 :
  (forall x y o1 o2, In o1 (h x) -> In o2 (h y) -> commute (op_fn o1) (op_fn o2)) ->
  Permutation l1 l2 ->
  forall s, fold_steps run_op (flat_map h l1) s = fold_steps run_op (flat_map h l2) s.
Proof.
  intros Hc Hp. induction Hp as [|x l l' Hp IH|x y l|l l' l'' Hp1 IH1 Hp2 IH2];
    intros s; cbn [flat_map].
  - reflexivity.
  - rewrite !fold_steps_app. apply obind_ext. exact IH.
  - rewrite !app_assoc, (fold_steps_app _ (h y ++ h x)), (fold_steps_app _ (h x ++ h y)).
    f_equal. apply fold_steps_swap_blocks. intros o1 o2 s' H1 H2.
    apply run_op_comm. eapply Hc; eassumption.
  - rewrite IH1. apply IH2.
Qed.

(** The same, when only blocks of distinct keys commute and the keys are
    distinct. *)
Lemma fold_flat_map_perm_keyed {X K} (h : X -> list Op) (key : X -> K) l1 l2 :
  (forall x y o1 o2, key x <> key y -> In o1 (h x) -> In o2 (h y) ->
     commute (op_fn o1) (op_fn o2)) ->
  NoDup (map key l1) ->
  Permutation l1 l2 ->
  forall s, fold_steps run_op (flat_map h l1) s = fold_steps run_op (flat_map h l2) s.
Proof.
  intros Hc Hnd Hp. revert Hnd.
  induction Hp as [|x l l' Hp IH|x y l|l l' l'' Hp1 IH1 Hp2 IH2];
    intros Hnd s; cbn [flat_map].
  - reflexivity.
  - rewrite !fold_steps_app. apply obind_ext. apply IH.
    simpl in Hnd. apply NoDup_cons_iff in Hnd as [_ Hnd]. exact Hnd.
  - rewrite !app_assoc, (fold_steps_app _ (h y ++ h x)), (fold_steps_app _ (h x ++ h y)).
    f_equal. apply fold_steps_swap_blocks. intros o1 o2 s' H1 H2.
    apply run_op_comm. eapply Hc; [|eassumption..].
    simpl in Hnd. apply NoDup_cons_iff in Hnd as [Hy _].
    intros E. apply Hy. rewrite E. left. reflexivity.
  - rewrite IH1 by exact Hnd. apply IH2.
    eapply Permutation_NoDup; [apply Permutation_map; exact Hp1 | exact Hnd].
Qed.

Lemma fold_flat_map_forall2 {X} (h : X -> list Op) l1 l2 :
  Forall2 (fun x y => forall s, fold_steps run_op (h x) s = fold_steps run_op (h y) s) l1 l2 ->
  forall s, fold_steps run_op (flat_map h l1) s = fold_steps run_op (flat_map h l2) s.
Proof.
  intros H2. induction H2 as [|x y l1 l2 Hxy H2 IH]; intros s; [reflexivity|].
  cbn [flat_map]. rewrite !fold_steps_app, Hxy. apply obind_ext. exact IH.
Qed.

(** ** The two updates of the tracker commute, except [required_by p] with
    [activated_by (p, f)] *)

Lemma required_by_comm a b : commute (required_by a) (required_by b).
Proof. intros [|rb af]; simpl; [reflexivity|]. rewrite BSet.insert_comm. reflexivity. Qed.

Lemma activated_by_comm x y : commute (activated_by x) (activated_by y).
Proof.
  intros [|rb af]; simpl; [reflexivity|].
  destruct (BSet.contains (fst y) rb) eqn:Ey, (BSet.contains (fst x) rb) eqn:Ex; simpl;
    rewrite ?Ex, ?Ey; simpl; try reflexivity.
  rewrite BSet.insert_comm. reflexivity.
Qed.

Lemma required_activated_comm a x :
  a <> fst x -> commute (required_by a) (activated_by x).
Proof.
  intros Hne [|rb af]; simpl; [reflexivity|].
  rewrite BSet.contains_insert, eqb_of_neq by (intros E; apply Hne; symmetry; exact E).
  simpl. destruct (BSet.contains (fst x) rb); reflexivity.
Qed.

Lemma visit_ops_fn g resolve o : In o (visit_ops g resolve) -> op_fn o = g.
Proof.
  unfold visit_ops, pkg_ops. intros Hin. apply in_flat_map in Hin as [id [_ Hin]].
  destruct Hin as [<-|Hin]; [reflexivity|].
  apply in_app_or in Hin as [Hin|Hin]; apply in_map_iff in Hin as [x [<- _]]; reflexivity.
Qed.

Lemma activation_ops_fn n frs o :
  In o (flat_map (fun fr => visit_ops (activated_by (n, fst fr)) (snd fr)) frs) ->
  exists f, op_fn o = activated_by (n, f).
Proof.
  intros Hin. apply in_flat_map in Hin as [fr [_ Hin]].
  exists (fst fr). exact (visit_ops_fn _ _ _ Hin).
Qed.

Lemma root_ops_fn r o :
  In o (root_ops r) ->
  op_fn o = required_by (root_name r) \/ exists f, op_fn o = activated_by (root_name r, f).
Proof.
  unfold root_ops. intros Hin. apply in_app_or in Hin as [Hin|Hin].
  - left. exact (visit_ops_fn _ _ _ Hin).
  - right. exact (activation_ops_fn _ _ _ Hin).
Qed.

Lemma root_ops_comm r1 r2 o1 o2 :
  root_name r1 <> root_name r2 -> In o1 (root_ops r1) -> In o2 (root_ops r2) ->
  commute (op_fn o1) (op_fn o2).
Proof.
  intros Hne H1 H2.
  destruct (root_ops_fn _ _ H1) as [E1|[f1 E1]], (root_ops_fn _ _ H2) as [E2|[f2 E2]];
    rewrite E1, E2.
  - apply required_by_comm.
  - apply required_activated_comm. exact Hne.
  - apply commute_sym, required_activated_comm. intros E. apply Hne. symmetry. exact E.
  - apply activated_by_comm.
Qed.

Lemma root_ops_reordered r r' :
  root_name r = root_name r' -> baseline_resolve r = baseline_resolve r' ->
  Permutation (feature_resolves r) (feature_resolves r') ->
  forall s, fold_steps run_op (root_ops r) s = fold_steps run_op (root_ops r') s.
Proof.
  intros En Eb Hp s. unfold root_ops. rewrite En, Eb, !fold_steps_app.
  apply obind_ext. apply fold_flat_map_perm; [|exact Hp].
  intros x y o1 o2 H1 H2.
  rewrite (visit_ops_fn _ _ _ H1), (visit_ops_fn _ _ _ H2). apply activated_by_comm.
Qed.

Lemma forall2_map_eq {A B C} (f : A -> C) (g : B -> C) (R : A -> B -> Prop) l1 l2 :
  (forall x y, R x y -> f x = g y) -> Forall2 R l1 l2 -> map f l1 = map g l2.
Proof.
  intros HR H2. induction H2; simpl; [reflexivity|]. f_equal; auto.
Qed.

(** [C1] Processing the root packages, and the features of each root
    package, in another order gives the same optionalities: the whole state
    after the tracking loop is the same (the same panic, or the same map),
    provided the root packages have distinct names. *)
Theorem track_order_independent roots1 roots2 st :
  NoDup (map root_name roots1) ->
  reordered roots1 roots2 ->
  track roots1 st = track roots2 st.
Proof.
  intros Hnd [roots1' [H2 Hp]]. rewrite !track_as_ops.
  transitivity (fold_steps run_op (flat_map root_ops roots1') st).
  - apply fold_flat_map_forall2.
    eapply Forall2_impl; [|exact H2].
    intros r r' [En [Eb Hf]]. apply root_ops_reordered; assumption.
  - apply (fold_flat_map_perm_keyed root_ops root_name); [| |exact Hp].
    + intros x y o1 o2 Hne H1' H2'. exact (root_ops_comm _ _ _ _ Hne H1' H2').
    + erewrite <- forall2_map_eq; [exact Hnd| |exact H2].
      intros x y [En _]. exact En.
Qed.

(** [app] and [tool] processed in both orders, with the features of [app]
    reversed. *)
Lemma track_order_independent_witness :
  NoDup (map root_name [Sample.app_root; Sample.tool_root]) /\
  reordered [Sample.app_root; Sample.tool_root] [Sample.tool_root; Sample.app_root_rev] /\
  track [Sample.app_root; Sample.tool_root] Sample.untracked =
  track [Sample.tool_root; Sample.app_root_rev] Sample.untracked.
Proof.
  assert (Hnd : NoDup (map root_name [Sample.app_root; Sample.tool_root])).
  { simpl. apply NoDup_cons; [simpl; intros [E|[]]; discriminate E|].
    apply NoDup_cons; [intros []|apply NoDup_nil]. }
  assert (Hr : reordered [Sample.app_root; Sample.tool_root]
                         [Sample.tool_root; Sample.app_root_rev]).
  { exists [Sample.app_root_rev; Sample.tool_root]. split.
    - repeat constructor.
    - apply perm_swap. }
  split; [exact Hnd|]. split; [exact Hr|].
  apply track_order_independent; [exact Hnd | exact Hr].
Defined.

(** ** What one pass does to one package *)

Lemma eqb_of_sym {A} `{OrdLaws A} (x y : A) : eqb_of x y = eqb_of y x.
Proof.
  destruct (eqb_of y x) eqn:E.
  - apply eqb_of_spec in E. subst. apply eqb_of_refl.
  - apply eqb_of_neq. intros ->. rewrite eqb_of_refl in E. discriminate.
Qed.

Lemma in_range_same_target (d d' : PackageId) (k : DependencyKind) :
  BMap.in_range (d, Normal) (d, Build) (d', k) = eqb_of d d'.
Proof.
  unfold BMap.in_range, eqb_of.
  replace (cmp (d, Normal) (d', k))
    with (match cmp d d' with Eq => cmp Normal k | c => c end) by reflexivity.
  replace (cmp (d', k) (d, Build))
    with (match cmp d' d with Eq => cmp k Build | c => c end) by reflexivity.
  rewrite (cmp_antisym d' d).
  destruct (cmp d d'); destruct k; reflexivity.
Qed.

Lemma get_apply_loc loc g r r1 :
  apply_loc loc g r = Some r1 ->
  (forall f, BMap.get f (rpkg_features r1) =
             option_map (match loc with LFeat f' => if eqb_of f' f then g else fun o => o
                                   | _ => fun o => o end)
                        (BMap.get f (rpkg_features r))) /\
  (forall k, BMap.get k (rpkg_deps r1) =
             option_map (match loc with
                         | LDeps d => if BMap.in_range (d, Normal) (d, Build) k
                                      then upd_dep g else fun x => x
                         | _ => fun x => x end)
                        (BMap.get k (rpkg_deps r))).
Proof.
  destruct loc as [|f'|d]; simpl; intros Happ.
  - injection Happ as <-. split; intros; destruct (BMap.get _ _); reflexivity.
  - destruct (BMap.get_mut f' _ (rpkg_features r)) as [fs|] eqn:G; [|discriminate].
    injection Happ as <-. simpl. split.
    + intros f. rewrite (BMap.get_get_mut _ _ _ _ _ G), eqb_of_sym.
      destruct (eqb_of f' f) eqn:E.
      * apply eqb_of_spec in E. subst. destruct (BMap.get f _); reflexivity.
      * destruct (BMap.get f _); reflexivity.
    + intros k. destruct (BMap.get k _); reflexivity.
  - injection Happ as <-. simpl. split.
    + intros f. destruct (BMap.get f _); reflexivity.
    + intros k. unfold iter_deps_with_id_mut. rewrite BMap.get_range_mut. reflexivity.
Qed.

Lemma upd_dep_idem g d :
  (forall o, g (g o) = g o) -> upd_dep g (upd_dep g d) = upd_dep g d.
Proof. intros Hg. unfold upd_dep. simpl. rewrite set_optionality_twice, Hg. reflexivity. Qed.

Lemma option_map_id {A} (x : option A) : option_map (fun a => a) x = x.
Proof. destruct x; reflexivity. Qed.

(** After a sequence of updates by the same idempotent [g], a feature or an
    edge of a package is updated once by [g] if some update touched it, and
    is otherwise unchanged. *)
Lemma fold_ops_get g ops st st' id r :
  (forall op, In op ops -> op_fn op = g) ->
  (forall o, g (g o) = g o) ->
  fold_steps run_op ops st = Some st' ->
  BMap.get id st = Some r ->
  exists r', BMap.get id st' = Some r' /\
    (forall f, BMap.get f (rpkg_features r') =
               option_map (if existsb (touches_feature id f) ops then g else fun o => o)
                          (BMap.get f (rpkg_features r))) /\
    (forall k, BMap.get k (rpkg_deps r') =
               option_map (if existsb (touches_dep id k) ops then upd_dep g else fun x => x)
                          (BMap.get k (rpkg_deps r))).
Proof.
  intros Hfn Hg. revert st r.
  induction ops as [|op ops IH]; intros st r Hfold Hr.
  - injection Hfold as <-. exists r. split; [exact Hr|].
    split; intros; simpl; rewrite option_map_id; reflexivity.
  - simpl in Hfold. destruct (run_op op st) as [st1|] eqn:R; [|discriminate].
    simpl in Hfold.
    assert (Hop : op_fn op = g) by (apply Hfn; left; reflexivity).
    assert (IH' := IH (fun op' H => Hfn op' (or_intror H)) st1).
    unfold run_op in R.
    pose proof (BMap.get_get_mut _ id _ _ _ R) as G1.
    destruct (eqb_of id (op_id op)) eqn:Eid.
    + assert (Eid' : eqb_of (op_id op) id = true) by (rewrite eqb_of_sym; exact Eid).
      apply eqb_of_spec in Eid. rewrite <- Eid, Hr in G1. simpl in G1.
      destruct (apply_loc (op_loc op) (op_fn op) r) as [r1|] eqn:A.
      2: { exfalso. assert (Hn : BMap.get_mut (op_id op) (apply_loc (op_loc op) (op_fn op)) st = None).
           { apply BMap.get_mut_none_iff. rewrite <- Eid, Hr. exact A. }
           congruence. }
      destruct (IH' r1 Hfold G1) as [r' [Hr' [Hf' Hd']]].
      destruct (get_apply_loc _ _ _ _ A) as [Hf1 Hd1].
      exists r'. split; [exact Hr'|]. rewrite Hop in Hf1, Hd1. split.
      * intros f. cbn [existsb]. unfold touches_feature at 1. rewrite Eid'.
        rewrite Hf', Hf1.
        destruct (op_loc op) as [|f'|d]; cbv beta iota delta [andb orb];
          [rewrite option_map_id; reflexivity| |rewrite option_map_id; reflexivity].
        destruct (eqb_of f' f), (existsb (touches_feature id f) ops);
          destruct (BMap.get f (rpkg_features r)); simpl; rewrite ?Hg; reflexivity.
      * intros k. cbn [existsb]. unfold touches_dep at 1. rewrite Eid'.
        rewrite Hd', Hd1.
        destruct (op_loc op) as [|f'|d]; cbv beta iota delta [andb orb];
          [rewrite option_map_id; reflexivity|rewrite option_map_id; reflexivity|].
        destruct (BMap.in_range (d, Normal) (d, Build) k),
                 (existsb (touches_dep id k) ops);
          destruct (BMap.get k (rpkg_deps r)); simpl; rewrite ?upd_dep_idem; auto.
    + rewrite Hr in G1.
      destruct (IH' r Hfold G1) as [r' [Hr' [Hf' Hd']]].
      exists r'. split; [exact Hr'|].
      assert (Eid' : eqb_of (op_id op) id = false) by (rewrite eqb_of_sym; exact Eid).
      split.
      * intros f. cbn [existsb]. unfold touches_feature at 1. rewrite Eid'. exact (Hf' f).
      * intros k. cbn [existsb]. unfold touches_dep at 1. rewrite Eid'. exact (Hd' k).
Qed.

Lemma existsb_flat_map {A B} (p : B -> bool) (h : A -> list B) l :
  existsb p (flat_map h l) = existsb (fun x => existsb p (h x)) l.
Proof. induction l as [|x l IH]; simpl; [reflexivity|]. rewrite existsb_app, IH. reflexivity. Qed.

Lemma existsb_map' {A B} (p : B -> bool) (h : A -> B) l :
  existsb p (map h l) = existsb (fun x => p (h x)) l.
Proof. induction l as [|x l IH]; simpl; [reflexivity|]. rewrite IH. reflexivity. Qed.

Lemma existsb_and_const {A} (b : bool) (p : A -> bool) l :
  existsb (fun x => b && p x) l = b && existsb p l.
Proof. destruct b; simpl; [reflexivity|]. induction l; simpl; auto. Qed.

Lemma existsb_eqb_and {A} `{OrdLaws A} (a : A) (p : A -> bool) l :
  existsb (fun x => eqb_of x a && p x) l = existsb (eqb_of a) l && p a.
Proof.
  induction l as [|x l IH]; simpl; [reflexivity|]. rewrite IH.
  destruct (eqb_of x a) eqn:E; simpl.
  - apply eqb_of_spec in E. subst. rewrite eqb_of_refl. simpl.
    destruct (p a), (existsb (eqb_of a) l); reflexivity.
  - rewrite eqb_of_sym, E. reflexivity.
Qed.

Lemma touches_feature_pkg_ops g resolve id' id f :
  existsb (touches_feature id f) (pkg_ops g resolve id') =
  eqb_of id' id && existsb (eqb_of f) (features resolve id').
Proof.
  unfold pkg_ops. cbn [existsb]. rewrite existsb_app, !existsb_map'.
  unfold touches_feature; simpl.
  rewrite !existsb_and_const.
  destruct (eqb_of id' id); simpl; [|reflexivity].
  induction (deps resolve id') as [|d ds IHd]; simpl; [|exact IHd].
  rewrite orb_false_r. induction (features resolve id') as [|x l IH]; simpl; [reflexivity|].
  rewrite IH, eqb_of_sym. reflexivity.
Qed.

Lemma touches_dep_pkg_ops g resolve id' id (k : PackageId * DependencyKind) :
  existsb (touches_dep id k) (pkg_ops g resolve id') =
  eqb_of id' id && existsb (eqb_of (fst k)) (map fst (deps resolve id')).
Proof.
  unfold pkg_ops. cbn [existsb]. rewrite existsb_app, !existsb_map'.
  unfold touches_dep; simpl.
  rewrite !existsb_and_const.
  destruct (eqb_of id' id); simpl; [|reflexivity].
  induction (features resolve id') as [|x l IH]; simpl; [|exact IH].
  destruct k as [d kind]; simpl.
  induction (deps resolve id') as [|[d' ds'] l IH]; simpl; [reflexivity|].
  rewrite IH, in_range_same_target, eqb_of_sym. reflexivity.
Qed.

Lemma existsb_ext' {A} (p q : A -> bool) l :
  (forall x, p x = q x) -> existsb p l = existsb q l.
Proof. intros Hpq. induction l as [|x l IH]; simpl; [reflexivity|]. rewrite Hpq, IH. reflexivity. Qed.

Lemma touches_feature_visit g resolve id f :
  existsb (touches_feature id f) (visit_ops g resolve) = reached_feature resolve id f.
Proof.
  unfold visit_ops, reached_feature. rewrite existsb_flat_map.
  rewrite (existsb_ext' _ _ _ (fun id' => touches_feature_pkg_ops g resolve id' id f)).
  apply (existsb_eqb_and id (fun id' => existsb (eqb_of f) (features resolve id'))).
Qed.

Lemma touches_dep_visit g resolve id (k : PackageId * DependencyKind) :
  existsb (touches_dep id k) (visit_ops g resolve) = reached_dep resolve id (fst k).
Proof.
  unfold visit_ops, reached_dep. rewrite existsb_flat_map.
  rewrite (existsb_ext' _ _ _ (fun id' => touches_dep_pkg_ops g resolve id' id k)).
  apply (existsb_eqb_and id (fun id' => existsb (eqb_of (fst k)) (map fst (deps resolve id')))).
Qed.

(** One pass [visit g resolve], for an idempotent [g]. *)
Lemma visit_get g resolve st st' id r :
  (forall o, g (g o) = g o) ->
  visit g resolve st = Some st' ->
  BMap.get id st = Some r ->
  exists r', BMap.get id st' = Some r' /\
    (forall f, BMap.get f (rpkg_features r') =
               option_map (if reached_feature resolve id f then g else fun o => o)
                          (BMap.get f (rpkg_features r))) /\
    (forall k, BMap.get k (rpkg_deps r') =
               option_map (if reached_dep resolve id (fst k) then upd_dep g else fun x => x)
                          (BMap.get k (rpkg_deps r))).
Proof.
  intros Hg Hv Hr. rewrite visit_as_ops in Hv.
  destruct (fold_ops_get g _ _ _ id r (fun op H => visit_ops_fn g resolve op H) Hg Hv Hr)
    as [r' [Hr' [Hf Hd]]].
  exists r'. split; [exact Hr'|]. split.
  - intros f. rewrite Hf, touches_feature_visit. reflexivity.
  - intros k. rewrite Hd, touches_dep_visit. reflexivity.
Qed.

Lemma required_by_idem name o : required_by name (required_by name o) = required_by name o.
Proof. destruct o as [|rb af]; simpl; [reflexivity|]. rewrite BSet.insert_idem. reflexivity. Qed.

Lemma activated_by_idem rf o : activated_by rf (activated_by rf o) = activated_by rf o.
Proof.
  destruct o as [|rb af]; simpl; [reflexivity|].
  destruct (BSet.contains (fst rf) rb) eqn:E; simpl; rewrite ?E; simpl; [reflexivity|].
  rewrite BSet.insert_idem. reflexivity.
Qed.

Lemma activated_by_as_specified rf o : activated_by rf o = activation_as_specified rf o.
Proof. destruct o as [|rb af]; simpl; [reflexivity|]. destruct (BSet.contains _ rb); reflexivity. Qed.

(** [C7] The feature pass of root feature [rf = (p, f)] with its scoped
    resolution: a feature or an edge of a package it reaches has [rf]
    recorded in its [activated_by_features] exactly when it is optional and
    [p] is not in its [required_by_pkgs] ([activation_as_specified]); any
    other item, reached or not, is left unchanged. *)
Theorem activate_records_conditionally rf resolve st st' id r r' :
  activate rf resolve st = Some st' ->
  BMap.get id st = Some r ->
  BMap.get id st' = Some r' ->
  (forall f, BMap.get f (rpkg_features r') =
     option_map (fun o => if reached_feature resolve id f
                          then activation_as_specified rf o else o)
                (BMap.get f (rpkg_features r))) /\
  (forall k, BMap.get k (rpkg_deps r') =
     option_map (fun d => if reached_dep resolve id (fst k)
                          then set_optionality (activation_as_specified rf (optionality d)) d
                          else d)
                (BMap.get k (rpkg_deps r))).
Proof.
  intros Ha Hr Hr'.
  destruct (visit_get (activated_by rf) resolve st st' id r (activated_by_idem rf) Ha Hr)
    as [r'' [Hr'' [Hf Hd]]].
  rewrite Hr' in Hr''. injection Hr'' as <-. split.
  - intros f. rewrite Hf.
    destruct (reached_feature resolve id f), (BMap.get f (rpkg_features r)); simpl;
      rewrite ?activated_by_as_specified; reflexivity.
  - intros k. rewrite Hd.
    destruct (reached_dep resolve id (fst k)), (BMap.get k (rpkg_deps r)); simpl;
      unfold upd_dep; rewrite ?activated_by_as_specified; reflexivity.
Qed.

(** [C8] The baseline pass of root package [name]: for an edge of [id] to
    [dep_id] that its resolution reports, the key range
    [(dep_id, Normal) ..= (dep_id, Build)] holds every kind, and every edge
    of [id] to [dep_id], whatever its kind, has [name] added to its
    [required_by_pkgs]. *)
Theorem mark_required_covers_all_kinds name resolve st st' id r r' dep_id :
  mark_required name resolve st = Some st' ->
  BMap.get id st = Some r ->
  BMap.get id st' = Some r' ->
  reached_dep resolve id dep_id = true ->
  (forall k, BMap.in_range (dep_id, Normal) (dep_id, Build) (dep_id, k) = true) /\
  (forall k d, BMap.get (dep_id, k) (rpkg_deps r) = Some d ->
     BMap.get (dep_id, k) (rpkg_deps r') =
     Some (set_optionality (required_by name (optionality d)) d)).
Proof.
  intros Hm Hr Hr' Hreach. split.
  - intros k. rewrite in_range_same_target. apply eqb_of_refl.
  - intros k d Hd0.
    destruct (visit_get (required_by name) resolve st st' id r (required_by_idem name) Hm Hr)
      as [r'' [Hr'' [_ Hd]]].
    rewrite Hr' in Hr''. injection Hr'' as <-.
    rewrite Hd, Hd0. simpl. rewrite Hreach. reflexivity.
Qed.

Section TrackerWitnesses.
Local Open Scope string_scope.

(** The pass of [("app", "extra")] after the baseline pass of [app], on
    [serde]: [derive] is recorded, [std], already required by [app], is
    not. *)
Lemma activate_records_conditionally_witness :
  activate ("app", "extra") Sample.app_extra Sample.after_base = Some Sample.after_extra /\
  BMap.get (Sample.sid "serde") Sample.after_base =
    Some (Sample.lookup (Sample.sid "serde") Sample.after_base) /\
  BMap.get (Sample.sid "serde") Sample.after_extra =
    Some (Sample.lookup (Sample.sid "serde") Sample.after_extra) /\
  ((forall f, BMap.get f (rpkg_features (Sample.lookup (Sample.sid "serde") Sample.after_extra)) =
     option_map (fun o => if reached_feature Sample.app_extra (Sample.sid "serde") f
                          then activation_as_specified ("app", "extra") o else o)
                (BMap.get f (rpkg_features (Sample.lookup (Sample.sid "serde") Sample.after_base)))) /\
   (forall k, BMap.get k (rpkg_deps (Sample.lookup (Sample.sid "serde") Sample.after_extra)) =
     option_map (fun d => if reached_dep Sample.app_extra (Sample.sid "serde") (fst k)
                          then set_optionality
                                 (activation_as_specified ("app", "extra") (optionality d)) d
                          else d)
                (BMap.get k (rpkg_deps (Sample.lookup (Sample.sid "serde") Sample.after_base))))).
Proof.
  assert (H1 : activate ("app", "extra") Sample.app_extra Sample.after_base =
               Some Sample.after_extra) by (vm_compute; reflexivity).
  assert (H2 : BMap.get (Sample.sid "serde") Sample.after_base =
               Some (Sample.lookup (Sample.sid "serde") Sample.after_base))
    by (vm_compute; reflexivity).
  assert (H3 : BMap.get (Sample.sid "serde") Sample.after_extra =
               Some (Sample.lookup (Sample.sid "serde") Sample.after_extra))
    by (vm_compute; reflexivity).
  split; [exact H1|]. split; [exact H2|]. split; [exact H3|].
  exact (activate_records_conditionally _ _ _ _ _ _ _ H1 H2 H3).
Defined.

(** The baseline pass of [app] reaches its development edge to [rand]. *)
Lemma mark_required_covers_all_kinds_witness :
  mark_required "app" Sample.app_base Sample.untracked = Some Sample.after_base /\
  BMap.get (Sample.sid "app") Sample.untracked =
    Some (Sample.lookup (Sample.sid "app") Sample.untracked) /\
  BMap.get (Sample.sid "app") Sample.after_base =
    Some (Sample.lookup (Sample.sid "app") Sample.after_base) /\
  reached_dep Sample.app_base (Sample.sid "app") (Sample.sid "rand") = true /\
  ((forall k, BMap.in_range (Sample.sid "rand", Normal) (Sample.sid "rand", Build)
                            (Sample.sid "rand", k) = true) /\
   (forall k d, BMap.get (Sample.sid "rand", k)
                  (rpkg_deps (Sample.lookup (Sample.sid "app") Sample.untracked)) = Some d ->
      BMap.get (Sample.sid "rand", k)
        (rpkg_deps (Sample.lookup (Sample.sid "app") Sample.after_base)) =
      Some (set_optionality (required_by "app" (optionality d)) d))).
Proof.
  assert (H1 : mark_required "app" Sample.app_base Sample.untracked = Some Sample.after_base)
    by (vm_compute; reflexivity).
  assert (H2 : BMap.get (Sample.sid "app") Sample.untracked =
               Some (Sample.lookup (Sample.sid "app") Sample.untracked))
    by (vm_compute; reflexivity).
  assert (H3 : BMap.get (Sample.sid "app") Sample.after_base =
               Some (Sample.lookup (Sample.sid "app") Sample.after_base))
    by (vm_compute; reflexivity).
  assert (H4 : reached_dep Sample.app_base (Sample.sid "app") (Sample.sid "rand") = true)
    by (vm_compute; reflexivity).
  split; [exact H1|]. split; [exact H2|]. split; [exact H3|]. split; [exact H4|].
  exact (mark_required_covers_all_kinds _ _ _ _ _ _ _ _ H1 H2 H3 H4).
Defined.
End TrackerWitnesses.

(* ------------------------------------------------------------------ *)
(** ** Further properties of the code *)

Lemma get_some_in {K V} `{OrdLaws K} (k : K) (v : V) (m : BMap.t K V) :
  BMap.get k m = Some v -> In (k, v) m.
Proof.
  induction m as [|[k' v'] m IH]; simpl; [discriminate|].
  destruct (eqb_of k k') eqn:E.
  - apply eqb_of_spec in E. intros Hv. injection Hv as <-. subst. left. reflexivity.
  - intros Hv. right. exact (IH Hv).
Qed.

Lemma get_none_not_in {K V} `{OrdLaws K} (k : K) (m : BMap.t K V) :
  BMap.get k m = None -> ~ In k (map fst m).
Proof.
  induction m as [|[k' v'] m IH]; simpl; [intros _ []|].
  destruct (eqb_of k k') eqn:E; [discriminate|].
  intros Hn [Heq|Hin].
  - subst. rewrite eqb_of_refl in E. discriminate.
  - exact (IH Hn Hin).
Qed.

(** [iter_deps_with_id_mut(id)] reaches exactly the edges whose target is
    [id], of every kind, and leaves the others alone. *)
Theorem iter_deps_with_id_mut_get id f ds (k : PackageId * DependencyKind) :
  BMap.get k (iter_deps_with_id_mut id f ds) =
  if eqb_of (fst k) id then option_map f (BMap.get k ds) else BMap.get k ds.
Proof.
  unfold iter_deps_with_id_mut. rewrite BMap.get_range_mut.
  destruct k as [d kind]. rewrite in_range_same_target, eqb_of_sym. simpl.
  destruct (eqb_of d id); [reflexivity|]. destruct (BMap.get _ ds); reflexivity.
Qed.

(** Distinct root features are shown as distinct strings, as long as
    package names have no ['/'] (cargo's do not). *)
Theorem display_root_feature_injective p1 f1 p2 f2 :
  find_byte "/"%char p1 = None -> find_byte "/"%char p2 = None ->
  display_root_feature (p1, f1) = display_root_feature (p2, f2) ->
  p1 = p2 /\ f1 = f2.
Proof.
  unfold display_root_feature; simpl. revert p2.
  induction p1 as [|c1 p1 IH]; intros [|c2 p2]; simpl; intros H1 H2 E.
  - injection E as E. split; [reflexivity | exact E].
  - injection E as Ec E. subst c2. rewrite Ascii.eqb_refl in H2. discriminate.
  - injection E as Ec E. subst c1. rewrite Ascii.eqb_refl in H1. discriminate.
  - injection E as <- E.
    destruct (Ascii.eqb c1 "/"%char); [discriminate|].
    destruct (find_byte "/"%char p1) eqn:F1; [discriminate|].
    destruct (find_byte "/"%char p2) eqn:F2; [discriminate|].
    destruct (IH p2 eq_refl F2 E) as [-> ->]. split; reflexivity.
Qed.

(** *** [read_version_attribute] *)

Lemma find_app_first {A} (p : A -> bool) pre x post :
  Forall (fun y => p y = false) pre -> p x = true -> find p (pre ++ x :: post) = Some x.
Proof.
  intros Hpre Hx. induction Hpre as [|y pre Hy Hpre IH]; simpl.
  - rewrite Hx. reflexivity.
  - rewrite Hy. exact IH.
Qed.

Lemma find_byte_app_hit c a r :
  find_byte c a = None -> find_byte c (a ++ String c r) = Some (String.length a).
Proof.
  induction a as [|c' a IH]; simpl.
  - rewrite Ascii.eqb_refl. reflexivity.
  - destruct (Ascii.eqb c' c); [discriminate|].
    destruct (find_byte c a); [discriminate|]. intros _. rewrite IH; reflexivity.
Qed.

Lemma rfind_byte_none c s : find_byte c s = None -> rfind_byte c s = None.
Proof.
  induction s as [|c' s IH]; simpl; [reflexivity|].
  destruct (Ascii.eqb c' c); [discriminate|].
  destruct (find_byte c s); [discriminate|]. intros _. rewrite IH; reflexivity.
Qed.

Lemma rfind_byte_app c x y :
  rfind_byte c (x ++ y) =
  match rfind_byte c y with Some j => Some (String.length x + j) | None => rfind_byte c x end.
Proof.
  induction x as [|c' x IH]; simpl.
  - destruct (rfind_byte c y); reflexivity.
  - rewrite IH. destruct (rfind_byte c y); [reflexivity|]. reflexivity.
Qed.

Lemma string_app_assoc (x y z : string) : (x ++ (y ++ z) = (x ++ y) ++ z)%string.
Proof. induction x as [|c x IH]; simpl; [reflexivity|]. rewrite IH. reflexivity. Qed.

Lemma string_length_app (x y : string) :
  String.length (x ++ y) = String.length x + String.length y.
Proof. induction x as [|c x IH]; simpl; [reflexivity|]. rewrite IH. reflexivity. Qed.

Lemma substring_app_skip (a s : string) n m :
  substring (String.length a + n) m (a ++ s) = substring n m s.
Proof. induction a as [|c a IH]; simpl; [reflexivity|]. exact IH. Qed.

Lemma substring_S_cons n m c s : substring (S n) m (String c s) = substring n m s.
Proof. reflexivity. Qed.

Lemma substring_prefix (b t : string) : substring 0 (String.length b) (b ++ t) = b.
Proof. induction b as [|c b IH]; simpl; [destruct t; reflexivity|]. rewrite IH. reflexivity. Qed.

(** The version is read from the first line that starts, after white
    space, with [cargo2nixVersion]: it is the text between the first and
    the last double quote of that line (which may itself hold double
    quotes); later lines are not read. *)
Theorem read_version_attribute_between_quotes (Version : Type)
  (parse_version : string -> option Version) pre l post a b c :
  Forall (fun line => String.prefix VERSION_ATTRIBUTE_NAME (trim_start line) = false) pre ->
  String.prefix VERSION_ATTRIBUTE_NAME (trim_start l) = true ->
  l = (a ++ String quote (b ++ String quote c))%string ->
  find_byte quote a = None ->
  find_byte quote c = None ->
  read_version_attribute Version parse_version (pre ++ l :: post) = parse_version b.
Proof.
  intros Hpre Hl El Ha Hc. unfold read_version_attribute.
  rewrite (find_app_first _ _ _ _ Hpre Hl). subst l.
  rewrite (find_byte_app_hit _ _ _ Ha).
  replace (a ++ String quote (b ++ String quote c))%string
    with ((a ++ String quote b) ++ String quote c)%string
    by (rewrite <- string_app_assoc; reflexivity).
  rewrite rfind_byte_app. cbn [rfind_byte]. rewrite (rfind_byte_none _ _ Hc), Ascii.eqb_refl.
  unfold str_slice. rewrite !string_length_app. cbn [String.length].
  match goal with
  | |- context [Nat.leb ?x ?y && Nat.leb ?y ?z] =>
      replace (Nat.leb x y && Nat.leb y z) with true
        by (symmetry; apply andb_true_iff; split; apply Nat.leb_le; lia)
  end.
  simpl. rewrite <- string_app_assoc.
  rewrite substring_app_skip. cbn [String.append].
  match goal with
  | |- context [substring 1 ?m _] => replace m with (String.length b) by lia
  end.
  rewrite (substring_S_cons 0), substring_prefix. reflexivity.
Qed.

(** When the first line that starts with [cargo2nixVersion] has fewer than
    two double quotes, the function panics, whatever the later lines. *)
Theorem read_version_attribute_first_line_only (Version : Type)
  (parse_version : string -> option Version) pre l post :
  Forall (fun line => String.prefix VERSION_ATTRIBUTE_NAME (trim_start line) = false) pre ->
  String.prefix VERSION_ATTRIBUTE_NAME (trim_start l) = true ->
  (forall i j, find_byte quote l = Some i -> rfind_byte quote l = Some j -> i = j) ->
  read_version_attribute Version parse_version (pre ++ l :: post) = None.
Proof.
  intros Hpre Hl Hq. unfold read_version_attribute.
  rewrite (find_app_first _ _ _ _ Hpre Hl).
  destruct (find_byte quote l) as [i|] eqn:Fi; [|reflexivity].
  destruct (rfind_byte quote l) as [j|] eqn:Fj; [|reflexivity].
  rewrite <- (Hq i j eq_refl eq_refl). unfold str_slice.
  replace (Nat.leb (i + 1) i) with false by (symmetry; apply Nat.leb_gt; lia).
  reflexivity.
Qed.

(** *** [main] *)

(** [main] writes a file only for [-f] or [--file], given alone (the file
    is then [Cargo.nix]) or followed by the file name, and only when every
    argument, the program name included, is UTF-8; any other argument list,
    and in particular one of three or more arguments, writes nothing. *)
Theorem main_writes_file_only args file :
  main args = Some (WriteToFile file) <->
  exists prog flag, (flag = "-f"%string \/ flag = "--file"%string) /\
    valid_utf8 prog = true /\
    ((args = [prog; flag] /\ file = "Cargo.nix"%string) \/
     (args = [prog; flag; file] /\ valid_utf8 file = true)).
Proof.
  split.
  - intros H. unfold main in H.
    destruct (forallb valid_utf8 args) eqn:V; simpl in H; [|discriminate].
    destruct args as [|prog [|a [|b [|x rest]]]]; try discriminate; injection H as H;
      simpl in V; rewrite ?andb_true_r in V.
    + apply andb_true_iff in V as [Vp _].
      destruct (String.eqb a "--stdout" || String.eqb a "-s"); [discriminate|].
      destruct (String.eqb a "--file" || String.eqb a "-f") eqn:E.
      * injection H as <-. exists prog, a. split; [|split; [exact Vp|left; split; reflexivity]].
        apply orb_true_iff in E as [E|E]; apply String.eqb_eq in E; auto.
      * destruct (String.eqb a "--help" || String.eqb a "-h"); [discriminate|].
        destruct (String.eqb a "--version" || String.eqb a "-v"); discriminate.
    + apply andb_true_iff in V as [Vp V]. apply andb_true_iff in V as [_ Vb].
      destruct (String.eqb a "--file" || String.eqb a "-f") eqn:E; [|discriminate].
      injection H as ->. exists prog, a.
      split; [|split; [exact Vp|right; split; [reflexivity|exact Vb]]].
      apply orb_true_iff in E as [E|E]; apply String.eqb_eq in E; auto.
  - intros [prog [flag [[-> | ->] [Vp [[-> ->] | [-> Vf]]]]]];
      unfold main; cbn [forallb]; rewrite Vp, ?Vf; reflexivity.
Qed.

(** *** The tracker only grows optionalities *)

Lemma grows_refl o : grows o o.
Proof. destruct o; simpl; auto. Qed.

Lemma grows_trans o1 o2 o3 : grows o1 o2 -> grows o2 o3 -> grows o1 o3.
Proof.
  destruct o1, o2, o3; simpl; try tauto.
  intros [H1 H2] [H3 H4]. split; auto.
Qed.

Lemma required_by_grows name o : grows o (required_by name o).
Proof.
  destruct o as [|rb af]; simpl; [exact I|].
  split; intros x Hx; [rewrite BSet.contains_insert, Hx, orb_true_r|]; auto.
Qed.

Lemma activated_by_grows rf o : grows o (activated_by rf o).
Proof.
  destruct o as [|rb af]; simpl; [exact I|].
  destruct (negb (BSet.contains (fst rf) rb)); simpl;
    split; intros x Hx; try rewrite BSet.contains_insert, Hx, orb_true_r; auto.
Qed.

Lemma rpkg_grows_refl r : rpkg_grows r r.
Proof.
  split.
  - intros f. destruct (BMap.get f (rpkg_features r)); [apply grows_refl|exact I].
  - intros k. destruct (BMap.get k (rpkg_deps r)) as [d|]; [|exact I].
    split; [apply grows_refl|symmetry; apply set_optionality_same].
Qed.

Lemma rpkg_grows_trans r1 r2 r3 : rpkg_grows r1 r2 -> rpkg_grows r2 r3 -> rpkg_grows r1 r3.
Proof.
  intros [F12 D12] [F23 D23]. split.
  - intros f. specialize (F12 f). specialize (F23 f).
    destruct (BMap.get f (rpkg_features r1)), (BMap.get f (rpkg_features r2)),
      (BMap.get f (rpkg_features r3)); try contradiction; auto.
    eapply grows_trans; eauto.
  - intros k. specialize (D12 k). specialize (D23 k).
    destruct (BMap.get k (rpkg_deps r1)) as [d1|], (BMap.get k (rpkg_deps r2)) as [d2|],
      (BMap.get k (rpkg_deps r3)) as [d3|]; try contradiction; auto.
    destruct D12 as [G12 E12], D23 as [G23 E23]. split; [eapply grows_trans; eauto|].
    rewrite E23, E12, set_optionality_twice. reflexivity.
Qed.

Lemma state_grows_refl st : state_grows st st.
Proof. intros id r H. exists r. split; [exact H|apply rpkg_grows_refl]. Qed.

Lemma state_grows_trans s1 s2 s3 : state_grows s1 s2 -> state_grows s2 s3 -> state_grows s1 s3.
Proof.
  intros H12 H23 id r H. destruct (H12 id r H) as [r2 [H2 G2]].
  destruct (H23 id r2 H2) as [r3 [H3 G3]]. exists r3. split; [exact H3|].
  eapply rpkg_grows_trans; eauto.
Qed.

Lemma fold_steps_grows {X} (step : X -> BMap.t PackageId ResolvedPackage ->
                                   option (BMap.t PackageId ResolvedPackage)) xs st st' :
  (forall x s s', step x s = Some s' -> state_grows s s') ->
  fold_steps step xs st = Some st' -> state_grows st st'.
Proof.
  intros Hstep. revert st. induction xs as [|x xs IH]; simpl; intros st H.
  - injection H as <-. apply state_grows_refl.
  - destruct (step x st) as [s|] eqn:E; simpl in H; [|discriminate].
    eapply state_grows_trans; [eapply Hstep; exact E|exact (IH _ H)].
Qed.

Lemma visit_grows g resolve st st' :
  (forall o, g (g o) = g o) -> (forall o, grows o (g o)) ->
  visit g resolve st = Some st' -> state_grows st st'.
Proof.
  intros Hi Hg Hv id r Hr.
  destruct (visit_get g resolve st st' id r Hi Hv Hr) as [r' [Hr' [Hf Hd]]].
  exists r'. split; [exact Hr'|]. split.
  - intros f. rewrite Hf. destruct (BMap.get f (rpkg_features r)); simpl; [|exact I].
    destruct (reached_feature resolve id f); [apply Hg|apply grows_refl].
  - intros k. rewrite Hd. destruct (BMap.get k (rpkg_deps r)) as [d|]; simpl; [|exact I].
    destruct (reached_dep resolve id (fst k)); simpl.
    + split; [apply Hg|reflexivity].
    + split; [apply grows_refl|symmetry; apply set_optionality_same].
Qed.

(** Tracking never removes a package, a feature or an edge of the
    resolved graph: after [generate_cargo_nix]'s loop over the root
    packages, every package is still there, with the same features and
    edges, each optionality only grown (a [Required] one stays [Required],
    the sets of an [Optional] one only gain elements), and each edge
    otherwise unchanged. *)
Theorem track_grows roots st st' :
  track roots st = Some st' -> state_grows st st'.
Proof.
  apply fold_steps_grows. intros pkg s s' H. unfold process_root in H.
  destruct (mark_required (root_name pkg) (baseline_resolve pkg) s) as [s1|] eqn:E1;
    simpl in H; [|discriminate].
  eapply state_grows_trans.
  - eapply visit_grows; [apply required_by_idem|apply required_by_grows|exact E1].
  - eapply fold_steps_grows; [|exact H]. intros fr t t' Ht.
    eapply visit_grows; [apply activated_by_idem|apply activated_by_grows|exact Ht].
Qed.

(** *** When the passes panic *)

Lemma run_op_none op st : run_op op st = None <-> op_panics st op = true.
Proof.
  unfold run_op, op_panics. rewrite BMap.get_mut_none_iff.
  destruct (BMap.get (op_id op) st) as [r|]; simpl; [|tauto].
  destruct (op_loc op) as [|f|d]; simpl; try (split; discriminate).
  destruct (BMap.get_mut f _ (rpkg_features r)) eqn:G; simpl.
  - assert (Hg : obind (BMap.get f (rpkg_features r)) (fun o => Some (op_fn op o)) <> None)
      by (intros Hn; apply BMap.get_mut_none_iff in Hn; congruence).
    destruct (BMap.get f (rpkg_features r)); simpl in *; [split; discriminate|congruence].
  - apply BMap.get_mut_none_iff in G.
    destruct (BMap.get f (rpkg_features r)); simpl in *; [discriminate|tauto].
Qed.

Lemma run_op_panics_same op st st' :
  run_op op st = Some st' -> forall op', op_panics st' op' = op_panics st op'.
Proof.
  unfold run_op. intros H op'. unfold op_panics.
  rewrite (BMap.get_get_mut _ _ _ _ _ H).
  destruct (eqb_of (op_id op') (op_id op)) eqn:E; [|reflexivity].
  apply eqb_of_spec in E. rewrite E.
  destruct (BMap.get (op_id op) st) as [r|] eqn:Gr; simpl.
  - destruct (apply_loc (op_loc op) (op_fn op) r) as [r1|] eqn:A.
    + destruct (get_apply_loc _ _ _ _ A) as [Hf _].
      destruct (op_loc op'); try reflexivity. rewrite Hf.
      destruct (BMap.get _ (rpkg_features r)); reflexivity.
    + assert (Hn : BMap.get_mut (op_id op) (apply_loc (op_loc op) (op_fn op)) st = None)
        by (apply BMap.get_mut_none_iff; rewrite Gr; exact A).
      congruence.
  - assert (Hn : BMap.get_mut (op_id op) (apply_loc (op_loc op) (op_fn op)) st = None)
      by (apply BMap.get_mut_none_iff; rewrite Gr; reflexivity).
    congruence.
Qed.

Lemma fold_run_ops_none ops st :
  fold_steps run_op ops st = None <-> existsb (op_panics st) ops = true.
Proof.
  revert st. induction ops as [|op ops IH]; intros st; simpl; [split; discriminate|].
  destruct (run_op op st) as [st'|] eqn:R; simpl.
  - assert (Hp : op_panics st op = false).
    { destruct (op_panics st op) eqn:P; [|reflexivity].
      apply run_op_none in P. congruence. }
    rewrite Hp, IH. simpl.
    rewrite (existsb_ext' _ _ ops (run_op_panics_same op st st' R)). reflexivity.
  - apply run_op_none in R. rewrite R. simpl. tauto.
Qed.

Lemma visit_none_iff g resolve st :
  visit g resolve st = None <->
  exists id, In id (iter resolve) /\
    match BMap.get id st with
    | None => True
    | Some r => exists f, In f (features resolve id) /\ BMap.get f (rpkg_features r) = None
    end.
Proof.
  rewrite visit_as_ops, fold_run_ops_none. unfold visit_ops.
  rewrite existsb_exists. split.
  - intros [op [Hin Hp]]. apply in_flat_map in Hin as [id [Hid Hop]].
    exists id. split; [exact Hid|].
    assert (Hopid : op_id op = id)
      by (exact (proj1 (Forall_forall _ _) (pkg_ops_ids g resolve id) op Hop)).
    unfold op_panics in Hp. rewrite Hopid in Hp.
    destruct (BMap.get id st) as [r|]; [|exact I].
    unfold pkg_ops in Hop. destruct Hop as [<-|Hop]; simpl in Hp; [discriminate|].
    apply in_app_or in Hop as [Hop|Hop]; apply in_map_iff in Hop as [x [<- Hx]];
      simpl in Hp; [|discriminate].
    exists x. split; [exact Hx|]. revert Hp. unfold Feature in *. destruct (BMap.get x (rpkg_features r)); congruence.
  - intros [id [Hid Hm]].
    destruct (BMap.get id st) as [r|] eqn:Gr.
    + destruct Hm as [f [Hf Hn]].
      exists {| op_id := id; op_loc := LFeat f; op_fn := g |}. split.
      * apply in_flat_map. exists id. split; [exact Hid|]. right.
        apply in_or_app. left. apply in_map_iff. exists f. split; [reflexivity|exact Hf].
      * unfold op_panics. simpl. rewrite Gr. unfold Feature. rewrite Hn. reflexivity.
    + exists {| op_id := id; op_loc := LPkg; op_fn := g |}. split.
      * apply in_flat_map. exists id. split; [exact Hid|]. left. reflexivity.
      * unfold op_panics. simpl. rewrite Gr. reflexivity.
Qed.

(** [mark_required] and [activate] panic exactly when the scoped
    resolution names a package missing from the resolved graph, or
    activates on a package a feature missing from its feature map; an edge
    of the resolution that the graph lacks never makes them panic. *)
Theorem passes_panic_iff name rf resolve st :
  let P := exists id, In id (iter resolve) /\
             match BMap.get id st with
             | None => True
             | Some r => exists f, In f (features resolve id) /\
                                   BMap.get f (rpkg_features r) = None
             end in
  (mark_required name resolve st = None <-> P) /\ (activate rf resolve st = None <-> P).
Proof. split; apply visit_none_iff. Qed.

(** *** [ResolvedPackage::new] *)

Section SortedMap.
Context {K V : Type} `{OrdLaws K}.

Lemma get_lt_none (k : K) (m : BMap.t K V) :
  Forall (fun kv => cmp k (fst kv) = Lt) m -> BMap.get k m = None.
Proof.
  induction m as [|[k' v] m IH]; simpl; intros Hm; [reflexivity|].
  inversion Hm as [|? ? Hk Hrest]; subst. simpl in Hk.
  unfold eqb_of. rewrite Hk. exact (IH Hrest).
Qed.

Lemma entry_or_insert_keys (k : K) d f (m : BMap.t K V) kv :
  In kv (BMap.entry_or_insert k d f m) -> fst kv = k \/ In (fst kv) (map fst m).
Proof.
  induction m as [|[k' v] m IH]; simpl; intros Hin.
  - destruct Hin as [<-|[]]. left. reflexivity.
  - destruct (cmp k k') eqn:E; simpl in Hin.
    + destruct Hin as [<-|Hin]; [right; left; apply cmp_eq_iff in E; subst; reflexivity|].
      right. right. apply in_map. exact Hin.
    + destruct Hin as [<-|[<-|Hin]]; [left; reflexivity|right; left; reflexivity|].
      right. right. apply in_map. exact Hin.
    + destruct Hin as [<-|Hin]; [right; left; reflexivity|].
      destruct (IH Hin) as [Hk|Hk]; [left; exact Hk|right; right; exact Hk].
Qed.

Lemma entry_or_insert_sorted (k : K) d f (m : BMap.t K V) :
  StronglySorted (fun a b => cmp (fst a) (fst b) = Lt) m ->
  StronglySorted (fun a b => cmp (fst a) (fst b) = Lt) (BMap.entry_or_insert k d f m).
Proof.
  induction m as [|[k' v] m IH]; simpl; intros Hs.
  - repeat constructor.
  - inversion Hs as [|? ? Hs' Hall]; subst.
    destruct (cmp k k') eqn:E.
    + apply cmp_eq_iff in E. subst. constructor; [exact Hs'|exact Hall].
    + constructor; [exact Hs|]. constructor; [exact E|].
      apply Forall_forall. intros kv Hkv.
      apply (cmp_lt_trans _ k'); [exact E|]. exact (proj1 (Forall_forall _ _) Hall kv Hkv).
    + constructor; [exact (IH Hs')|]. apply Forall_forall. intros kv Hkv.
      destruct (entry_or_insert_keys _ _ _ _ _ Hkv) as [Hk|Hk].
      * simpl. rewrite Hk. apply cmp_gt_lt. exact E.
      * apply in_map_iff in Hk as [kv' [Hkv' Hin]]. simpl. rewrite <- Hkv'.
        exact (proj1 (Forall_forall _ _) Hall kv' Hin).
Qed.

Lemma get_entry_or_insert (k k' : K) d f (m : BMap.t K V) :
  StronglySorted (fun a b => cmp (fst a) (fst b) = Lt) m ->
  BMap.get k (BMap.entry_or_insert k' d f m) =
  if eqb_of k k' then Some (match BMap.get k' m with Some v => f v | None => f d end)
  else BMap.get k m.
Proof.
  induction m as [|[k0 v] m IH]; simpl; intros Hs.
  - destruct (eqb_of k k'); reflexivity.
  - inversion Hs as [|? ? Hs' Hall]; subst.
    destruct (cmp k' k0) eqn:E; simpl.
    + apply cmp_eq_iff in E. subst. rewrite eqb_of_refl.
      destruct (eqb_of k k0); reflexivity.
    + destruct (eqb_of k k') eqn:Ek; [|reflexivity].
      apply eqb_of_spec in Ek. subst k.
      replace (eqb_of k' k0) with false by (unfold eqb_of; rewrite E; reflexivity).
      rewrite get_lt_none; [reflexivity|].
      apply Forall_forall. intros kv Hkv.
      apply (cmp_lt_trans _ k0); [exact E|]. exact (proj1 (Forall_forall _ _) Hall kv Hkv).
    + rewrite (IH Hs').
      destruct (eqb_of k k0) eqn:E0, (eqb_of k k') eqn:E1; try reflexivity.
      * apply eqb_of_spec in E0, E1. subst. rewrite cmp_refl in E. discriminate.
      * apply eqb_of_spec in E1. subst k. replace (eqb_of k' k0) with false by (unfold eqb_of; rewrite E; reflexivity). reflexivity.
Qed.

Lemma from_list_const_get (k : K) (d : V) (l : list K) (m : BMap.t K V) :
  StronglySorted (fun a b => cmp (fst a) (fst b) = Lt) m ->
  BMap.get k (fold_left (fun m kv => BMap.entry_or_insert (fst kv) (snd kv) (fun _ => snd kv) m)
                        (map (fun x => (x, d)) l) m) =
  if existsb (eqb_of k) l then Some d else BMap.get k m.
Proof.
  revert m. induction l as [|x l IH]; intros m Hs; simpl; [reflexivity|].
  rewrite IH by (apply entry_or_insert_sorted; exact Hs).
  rewrite get_entry_or_insert by exact Hs.
  destruct (eqb_of k x), (existsb (eqb_of k) l); simpl;
    try reflexivity; destruct (BMap.get x m); reflexivity.
Qed.
End SortedMap.

(** Every feature cargo activates on the package is in the feature map of
    the resolved package, at the default optionality (no root package yet),
    and no other feature is. *)
Theorem new_features_default ecn prefetch pkg pkgs_by_id resolve r :
  ResolvedPackage_new ecn prefetch pkg pkgs_by_id resolve = Some r ->
  forall f, BMap.get f (rpkg_features r) =
            if existsb (String.eqb f) (features resolve (package_id pkg))
            then Some Optionality_default else None.
Proof.
  unfold ResolvedPackage_new. intros Hn f.
  destruct (dep_items _ _ _ _) as [items|]; [|discriminate].
  destruct (checksum_of _ _ _) as [cs|]; [|discriminate].
  injection Hn as <-. simpl. unfold BMap.from_list.
  rewrite (from_list_const_get (K := string)) by constructor.
  replace (existsb (eqb_of f) (features resolve (package_id pkg)))
    with (existsb (String.eqb f) (features resolve (package_id pkg))); [reflexivity|].
  apply existsb_ext'. intros x.
  destruct (String.eqb f x) eqn:E, (eqb_of f x) eqn:E'; try reflexivity.
  - apply String.eqb_eq in E. subst. rewrite eqb_of_refl in E'. discriminate.
  - apply eqb_of_spec in E'. subst. rewrite String.eqb_refl in E. discriminate.
Qed.

Lemma add_dep_sorted m it :
  StronglySorted (fun a b => cmp (fst a) (fst b) = Lt) m ->
  StronglySorted (fun a b => cmp (fst a) (fst b) = Lt) (add_dep m it).
Proof.
  destruct it as [[[dep_id dep] dep_pkg] name]. apply entry_or_insert_sorted.
Qed.

Lemma set_platforms_twice p q d : set_platforms p (set_platforms q d) = set_platforms p d.
Proof. reflexivity. Qed.

Lemma fold_add_dep_get (k : PackageId * DependencyKind) items m :
  StronglySorted (fun a b => cmp (fst a) (fst b) = Lt) m ->
  let decls := filter (fun it : PackageId * Dependency * Package * string =>
                         eqb_of k (fst (fst (fst it)), dep_kind (snd (fst (fst it))))) items in
  let merge v :=
    set_platforms
      (match platforms v with
       | None => None
       | Some ps =>
           if existsb (fun it => match dep_platform (snd (fst (fst it))) with
                                 | None => true | Some _ => false end) decls
           then None
           else Some (ps ++ flat_map (fun it => match dep_platform (snd (fst (fst it))) with
                                                | Some p => [p] | None => [] end) decls)
       end) v in
  BMap.get k (fold_left add_dep items m) =
  match BMap.get k m with
  | Some v => Some (merge v)
  | None =>
      match decls with
      | [] => None
      | (_, _, dep_pkg, name) :: _ =>
          Some (merge {| extern_name := name; rdep_pkg := dep_pkg;
                         optionality := Optionality_default; platforms := Some [] |})
      end
  end.
Proof.
  revert m. induction items as [|it items IH]; intros m Hs; simpl.
  - destruct (BMap.get k m) as [v|]; [|reflexivity].
    destruct v as [n p o [ps|]]; unfold set_platforms; simpl; rewrite ?app_nil_r; reflexivity.
  - rewrite (IH _ (add_dep_sorted _ it Hs)).
    destruct it as [[[dep_id dep] dep_pkg] name]. simpl.
    rewrite get_entry_or_insert by exact Hs.
    destruct (eqb_of k (dep_id, dep_kind dep)) eqn:Ek.
    + apply eqb_of_spec in Ek. rewrite <- Ek.
      destruct (BMap.get k m) as [v|] eqn:Gv; simpl;
        [|set (v := {| extern_name := name; rdep_pkg := dep_pkg;
                       optionality := Optionality_default; platforms := Some [] |})];
        f_equal; destruct (dep_platform dep) as [p|], (platforms v) as [ps|] eqn:Pv;
        simpl; rewrite ?Pv; simpl; try reflexivity;
        destruct (existsb _ _); rewrite ?set_platforms_twice, <- ?app_assoc; reflexivity.
    + destruct (BMap.get k m) as [v|]; reflexivity.
Qed.

(** The edges of a new resolved package: the edge [(dep_id, kind)] exists
    exactly when some kept declaration (one whose package has a library
    target cargo can name) has that target and kind. It takes its crate
    name and package from the first such declaration, starts at the default
    optionality, and is restricted to the platforms of those declarations,
    in order, unless one of them has no platform, which makes it
    unrestricted. *)
Theorem new_edges ecn prefetch pkg pkgs_by_id resolve r items :
  ResolvedPackage_new ecn prefetch pkg pkgs_by_id resolve = Some r ->
  dep_items ecn pkgs_by_id pkg (deps resolve (package_id pkg)) = Some items ->
  forall dep_id kind,
  let decls := filter (fun it : PackageId * Dependency * Package * string =>
                         eqb_of (dep_id, kind) (fst (fst (fst it)), dep_kind (snd (fst (fst it)))))
                      items in
  BMap.get (dep_id, kind) (rpkg_deps r) =
  match decls with
  | [] => None
  | (_, _, dep_pkg, name) :: _ =>
      Some {| extern_name := name; rdep_pkg := dep_pkg;
              optionality := Optionality_default;
              platforms :=
                if existsb (fun it => match dep_platform (snd (fst (fst it))) with
                                      | None => true | Some _ => false end) decls
                then None
                else Some (flat_map (fun it => match dep_platform (snd (fst (fst it))) with
                                               | Some p => [p] | None => [] end) decls) |}
  end.
Proof.
  unfold ResolvedPackage_new. intros Hn Hi dep_id kind. rewrite Hi in Hn.
  destruct (checksum_of _ _ _) as [cs|]; [|discriminate].
  injection Hn as <-. simpl.
  rewrite (fold_add_dep_get (dep_id, kind) items [] (SSorted_nil _)). simpl.
  destruct (filter _ items) as [|[[[i d] p] n] rest]; reflexivity.
Qed.

Lemma dep_items_none ecn pkgs_by_id pkg gs :
  dep_items ecn pkgs_by_id pkg gs = None <->
  exists g, In g gs /\ BMap.get (fst g) pkgs_by_id = None.
Proof.
  induction gs as [|[dep_id ds] gs IH]; cbn [dep_items].
  - split; [discriminate|]. intros [g [[] _]].
  - unfold dep_group. destruct (BMap.get dep_id pkgs_by_id) eqn:G.
    + destruct (dep_items ecn pkgs_by_id pkg gs) eqn:D.
      * split; [discriminate|]. intros [g [[<-|Hg] Hn]]; [simpl in Hn; congruence|].
        assert (Hx : Some l = None) by (apply IH; eauto).
        discriminate.
      * split; [|reflexivity]. intros _. destruct (proj1 IH eq_refl) as [g [Hg Hn]].
        exists g. split; [right; exact Hg|exact Hn].
    + split; [|reflexivity]. intros _. exists (dep_id, ds). split; [left; reflexivity|exact G].
Qed.

(** [ResolvedPackage::new] panics exactly when cargo's resolution gives the
    package a dependency missing from [pkgs_by_id], or when the lock data
    has no checksum for it and it comes from git with no precise revision
    or a failed [nix-prefetch-git]. A dependency with no library target is
    never a panic. *)
Theorem new_panics_iff ecn prefetch pkg pkgs_by_id resolve :
  ResolvedPackage_new ecn prefetch pkg pkgs_by_id resolve = None <->
  (exists g, In g (deps resolve (package_id pkg)) /\ BMap.get (fst g) pkgs_by_id = None) \/
  (match BMap.get (package_id pkg) (resolve_checksums resolve) with
   | Some (Some _) => False
   | _ => let src := pid_source (package_id pkg) in
          is_git src = true /\
          match source_precise src with
          | None => True
          | Some rev => prefetch (source_url src) rev = None
          end
   end).
Proof.
  unfold ResolvedPackage_new. rewrite <- (dep_items_none ecn pkgs_by_id pkg).
  destruct (dep_items _ _ _ _) as [items|]; [|split; intros _; [left|]; reflexivity].
  assert (Hc : checksum_of prefetch resolve pkg = None <->
               match BMap.get (package_id pkg) (resolve_checksums resolve) with
               | Some (Some _) => False
               | _ => let src := pid_source (package_id pkg) in
                      is_git src = true /\
                      match source_precise src with
                      | None => True
                      | Some rev => prefetch (source_url src) rev = None
                      end
               end).
  { unfold checksum_of.
    destruct (BMap.get (package_id pkg) (resolve_checksums resolve)) as [[s|]|];
      [split; [discriminate|intros []]| |];
    simpl; destruct (is_git (pid_source (package_id pkg)));
      (split; [|intros [H _]; discriminate]) || idtac;
    try (split; [discriminate|intros [H _]; discriminate]);
    destruct (source_precise (pid_source (package_id pkg))) as [rev|];
    try (destruct (prefetch _ rev)); split; try discriminate; try tauto;
    intros [_ H]; try discriminate; reflexivity. }
  destruct (checksum_of prefetch resolve pkg) as [cs|].
  - split; [discriminate|]. intros [H|H]; [discriminate|]. apply Hc in H. discriminate.
  - split; [intros _; right; apply Hc; reflexivity|reflexivity].
Qed.

Section ExtraWitnesses.
Local Open Scope string_scope.

(** A root feature whose name has a slash is still told apart. *)
Lemma display_root_feature_injective_witness :
  find_byte "/"%char "app" = None /\
  display_root_feature ("app", "serde/derive") = display_root_feature ("app", "serde/derive") /\
  ("app" = "app" /\ "serde/derive" = "serde/derive").
Proof.
  assert (H1 : find_byte "/"%char "app" = None) by reflexivity.
  split; [exact H1|]. split; [reflexivity|].
  exact (display_root_feature_injective "app" "serde/derive" "app" "serde/derive"
           H1 H1 eq_refl).
Defined.

(** The attribute line, indented, after a line without it. *)
Lemma read_version_attribute_between_quotes_witness :
  let l := "  cargo2nixVersion = " ++ String quote ("0.9.0" ++ String quote ";") in
  Forall (fun line => String.prefix VERSION_ATTRIBUTE_NAME (trim_start line) = false)
         ["{ pkgs }:"] /\
  String.prefix VERSION_ATTRIBUTE_NAME (trim_start l) = true /\
  find_byte quote "  cargo2nixVersion = " = None /\ find_byte quote ";" = None /\
  read_version_attribute string (fun v => Some v) (["{ pkgs }:"] ++ l :: ["}"]) = Some "0.9.0".
Proof.
  intros l.
  assert (H1 : Forall (fun line => String.prefix VERSION_ATTRIBUTE_NAME (trim_start line) = false)
                      ["{ pkgs }:"]) by (repeat constructor).
  assert (H2 : String.prefix VERSION_ATTRIBUTE_NAME (trim_start l) = true)
    by (vm_compute; reflexivity).
  assert (H4 : find_byte quote "  cargo2nixVersion = " = None) by (vm_compute; reflexivity).
  assert (H5 : find_byte quote ";" = None) by (vm_compute; reflexivity).
  split; [exact H1|]. split; [exact H2|]. split; [exact H4|]. split; [exact H5|].
  exact (read_version_attribute_between_quotes string (fun v => Some v) ["{ pkgs }:"] l ["}"]
           "  cargo2nixVersion = " "0.9.0" ";" H1 H2 eq_refl H4 H5).
Defined.

(** An attribute line with one quote only: the version is not read, even
    though a later line has a well-formed one. *)
Lemma read_version_attribute_first_line_only_witness :
  let l := "cargo2nixVersion = " ++ String quote "0.9.0" in
  let good := "cargo2nixVersion = " ++ String quote ("0.9.0" ++ String quote ";") in
  String.prefix VERSION_ATTRIBUTE_NAME (trim_start l) = true /\
  find_byte quote l = Some 19 /\ rfind_byte quote l = Some 19 /\
  read_version_attribute string (fun v => Some v) ([] ++ l :: [good]) = None.
Proof.
  intros l good.
  assert (H2 : String.prefix VERSION_ATTRIBUTE_NAME (trim_start l) = true)
    by (vm_compute; reflexivity).
  assert (Hi : find_byte quote l = Some 19) by (vm_compute; reflexivity).
  assert (Hj : rfind_byte quote l = Some 19) by (vm_compute; reflexivity).
  assert (H3 : forall i j, find_byte quote l = Some i -> rfind_byte quote l = Some j -> i = j)
    by (intros i j Ei Ej; rewrite Hi in Ei; rewrite Hj in Ej; congruence).
  split; [exact H2|]. split; [exact Hi|]. split; [exact Hj|].
  exact (read_version_attribute_first_line_only string (fun v => Some v) [] l [good]
           (Forall_nil _) H2 H3).
Defined.

(** The tracker run on the sample workspace. *)
Lemma track_grows_witness :
  let st' := match track [Sample.app_root; Sample.tool_root] Sample.untracked with
             | Some s => s | None => [] end in
  track [Sample.app_root; Sample.tool_root] Sample.untracked = Some st' /\
  state_grows Sample.untracked st'.
Proof.
  intros st'.
  assert (H : track [Sample.app_root; Sample.tool_root] Sample.untracked = Some st')
    by (vm_compute; reflexivity).
  split; [exact H|]. exact (track_grows _ _ _ H).
Defined.

(** [app] resolved without platform restrictions. *)
Lemma new_features_default_witness :
  let r := match ResolvedPackage_new Sample.extern_crate_name Sample.prefetch_git
                   (Sample.package "app") Sample.pkgs_by_id Sample.full_resolve with
           | Some r => r | None => Sample.app_rpkg end in
  ResolvedPackage_new Sample.extern_crate_name Sample.prefetch_git
    (Sample.package "app") Sample.pkgs_by_id Sample.full_resolve = Some r /\
  BMap.get "default" (rpkg_features r) = Some Optionality_default.
Proof.
  intros r.
  assert (H : ResolvedPackage_new Sample.extern_crate_name Sample.prefetch_git
                (Sample.package "app") Sample.pkgs_by_id Sample.full_resolve = Some r)
    by (vm_compute; reflexivity).
  split; [exact H|].
  exact (new_features_default _ _ _ _ _ _ H "default").
Defined.

(** [app]'s edge to [serde] is restricted to both platforms, in order. *)
Lemma new_edges_witness :
  let new := ResolvedPackage_new Sample.extern_crate_name Sample.prefetch_git
               (Sample.package "app") Sample.pkgs_by_id Sample.platform_resolve in
  let items := dep_items Sample.extern_crate_name Sample.pkgs_by_id (Sample.package "app")
                 (deps Sample.platform_resolve (Sample.sid "app")) in
  let r := match new with Some r => r | None => Sample.app_rpkg end in
  let its := match items with Some l => l | None => [] end in
  new = Some r /\ items = Some its /\
  option_map platforms (BMap.get (Sample.sid "serde", Normal) (rpkg_deps r)) =
    Some (Some ["cfg(unix)"; "cfg(windows)"]).
Proof.
  intros new items r its.
  assert (H1 : new = Some r) by (vm_compute; reflexivity).
  assert (H2 : items = Some its) by (vm_compute; reflexivity).
  split; [exact H1|]. split; [exact H2|].
  rewrite (new_edges _ _ _ _ _ _ _ H1 H2 (Sample.sid "serde") Normal).
  vm_compute. reflexivity.
Defined.
End ExtraWitnesses.

(** *** [simplify_optionality] and [all_eq] *)

(** [simplify_optionality] changes optionalities only: the packages, and in
    each package its manifest, its checksum, its feature names and its
    edges up to their optionality, are those it was given. *)
Theorem simplify_changes_only_optionalities (m : BMap.t PackageId ResolvedPackage) (n : nat) :
  map fst (simplify_optionality m n) = map fst m /\
  forall id,
    option_map (fun r => (rpkg_pkg r, rpkg_checksum r, map fst (rpkg_features r),
                          map (fun kv => (fst kv, set_optionality Required (snd kv)))
                              (rpkg_deps r)))
               (BMap.get id (simplify_optionality m n)) =
    option_map (fun r => (rpkg_pkg r, rpkg_checksum r, map fst (rpkg_features r),
                          map (fun kv => (fst kv, set_optionality Required (snd kv)))
                              (rpkg_deps r)))
               (BMap.get id m).
Proof.
  split; [apply values_mut_keys|]. intros id.
  rewrite simplify_optionality_get. destruct (BMap.get id m) as [r|]; [simpl|reflexivity].
  destruct (simplify_rpkg_items n r) as [c [Hd Hf]].
  assert (Hp : rpkg_pkg (simplify_rpkg n r) = rpkg_pkg r /\
               rpkg_checksum (simplify_rpkg n r) = rpkg_checksum r).
  { unfold simplify_rpkg. cbv zeta.
    destruct (all_eq _); split; reflexivity. }
  destruct Hp as [Hp Hc]. rewrite Hd, Hf, Hp, Hc, values_mut_keys, map_map. simpl.
  do 2 f_equal. apply map_ext. intros [k d]. simpl.
  destruct (is_development k || c); reflexivity.
Qed.

(** [all_eq] holds of an empty sequence, and of a non-empty one exactly
    when all its items are equal. *)
Theorem all_eq_iff (l : list Optionality) :
  all_eq l = true <-> (forall x y, In x l -> In y l -> x = y).
Proof.
  destruct l as [|a l]; simpl.
  - split; [intros _ x y []|reflexivity].
  - rewrite forallb_forall. unfold Optionality_eqb. split.
    + intros H x y Hx Hy.
      assert (Ha : forall z, a = z \/ In z l -> z = a).
      { intros z [<-|Hz]; [reflexivity|].
        specialize (H z Hz). destruct (Optionality_eq_dec z a); congruence. }
      rewrite (Ha x Hx), (Ha y Hy). reflexivity.
    + intros H x Hx. rewrite (H x a (or_intror Hx) (or_introl eq_refl)).
      destruct (Optionality_eq_dec a a); congruence.
Qed.

(** *** When [main] panics before choosing an action *)

